(** * basicLogger: the ownership-and-draining protocol of [class Log]

    A shallow embedding of [basicLogger.cpp].  The members of [Log] become
    the fields of one record; [write], [flush], [handleSync] and the body of
    [serialize] become functions on that record; the three kinds of thread
    (producers calling [operator<<], the thread running [serialize], the
    thread running [~Log]) become the labels of a small-step semantics whose
    steps are the critical sections delimited by [mLogMutex]. *)

From stdpp Require Import base list strings.

(** ** Data *)

(** [std::thread::id] of a running thread.  The default-constructed id, which
    [std::this_thread::get_id()] never returns, is the [None] of
    [option ThreadId]. *)
Definition ThreadId := nat.

(** What [mStream << value] does when the closure of an entry runs, which is
    all the protocol sees of a value: the characters it puts into the buffer,
    and whether it makes the stream call [LogBuf::sync]. *)
Record Value := mkValue {
  rendered : string;
  flushes : bool
}.

Definition newline : string := String (Ascii.ascii_of_nat 10) EmptyString.

(** A value the stream renders as [s], taken by the overload of line 29. *)
Definition Text (s : string) : Value := mkValue s false.

(** [std::endl] and [std::flush], taken by the overload of line 44. *)
Definition Endl : Value := mkValue newline true.
Definition Flush : Value := mkValue "" true.

(** A manipulator of [std::ios] or [std::ios_base], taken by the overloads of
    lines 34 and 39: no character, no flush. *)
Definition Manip : Value := mkValue "" false.

(** [struct LogEntry]: the functor is the closure built in [write], which
    captures the value; it is kept defunctionalised as that value. *)
Record LogEntry := mkEntry {
  mThreadId : ThreadId;
  mValue : Value
}.

(** Where the thread that runs [serialize] stands. *)
Inductive Pc :=
| Waiting      (* blocked in, or about to enter, [wait]: the mutex is released *)
| Woken        (* [wait] has returned with the mutex held; line 134 is next *)
| Draining     (* inside the [do ... while] of lines 162-186, mutex held *)
| Terminated.  (* left the loop through the [break] of line 159 *)

(** The control points at which the serialize thread owns the
    [std::unique_lock] of line 129. *)
Definition holds_mutex (pc : Pc) : bool :=
  match pc with
  | Woken | Draining => true
  | Waiting | Terminated => false
  end.

(** The members of [Log], followed by what the program does to its
    environment: the writes to [std::cout], the calls of [notify_one] and the
    closures invoked so far.  No function below reads the last three. *)
Record State := mkState {
  mLogQueue : list LogEntry;
  mCurrentLog : option nat;          (* iterator: [None] is [std::end] *)
  mCurrentThreadId : option ThreadId;
  mLogMutex : bool;                  (* [true]: held by the serialize thread *)
  mClosing : bool;
  mFlushed : bool;
  mStream : string;                  (* the characters held by [mBuf] *)
  mThread : Pc;
  cout : list string;
  notified : nat;
  invoked : list LogEntry
}.

Definition set_queue (q : list LogEntry) (st : State) : State :=
  mkState q (mCurrentLog st) (mCurrentThreadId st) (mLogMutex st) (mClosing st)
    (mFlushed st) (mStream st) (mThread st) (cout st) (notified st) (invoked st).

Definition set_cursor (it : option nat) (st : State) : State :=
  mkState (mLogQueue st) it (mCurrentThreadId st) (mLogMutex st) (mClosing st)
    (mFlushed st) (mStream st) (mThread st) (cout st) (notified st) (invoked st).

Definition set_owner (o : option ThreadId) (st : State) : State :=
  mkState (mLogQueue st) (mCurrentLog st) o (mLogMutex st) (mClosing st)
    (mFlushed st) (mStream st) (mThread st) (cout st) (notified st) (invoked st).

Definition set_mutex (b : bool) (st : State) : State :=
  mkState (mLogQueue st) (mCurrentLog st) (mCurrentThreadId st) b (mClosing st)
    (mFlushed st) (mStream st) (mThread st) (cout st) (notified st) (invoked st).

Definition set_closing (b : bool) (st : State) : State :=
  mkState (mLogQueue st) (mCurrentLog st) (mCurrentThreadId st) (mLogMutex st) b
    (mFlushed st) (mStream st) (mThread st) (cout st) (notified st) (invoked st).

Definition set_flushed (b : bool) (st : State) : State :=
  mkState (mLogQueue st) (mCurrentLog st) (mCurrentThreadId st) (mLogMutex st)
    (mClosing st) b (mStream st) (mThread st) (cout st) (notified st) (invoked st).

Definition set_stream (s : string) (st : State) : State :=
  mkState (mLogQueue st) (mCurrentLog st) (mCurrentThreadId st) (mLogMutex st)
    (mClosing st) (mFlushed st) s (mThread st) (cout st) (notified st) (invoked st).

Definition set_thread (pc : Pc) (st : State) : State :=
  mkState (mLogQueue st) (mCurrentLog st) (mCurrentThreadId st) (mLogMutex st)
    (mClosing st) (mFlushed st) (mStream st) pc (cout st) (notified st) (invoked st).

Definition cout_write (s : string) (st : State) : State :=
  mkState (mLogQueue st) (mCurrentLog st) (mCurrentThreadId st) (mLogMutex st)
    (mClosing st) (mFlushed st) (mStream st) (mThread st) (cout st ++ [s])
    (notified st) (invoked st).

Definition notify_one (st : State) : State :=
  mkState (mLogQueue st) (mCurrentLog st) (mCurrentThreadId st) (mLogMutex st)
    (mClosing st) (mFlushed st) (mStream st) (mThread st) (cout st)
    (S (notified st)) (invoked st).

Definition record_call (e : LogEntry) (st : State) : State :=
  mkState (mLogQueue st) (mCurrentLog st) (mCurrentThreadId st) (mLogMutex st)
    (mClosing st) (mFlushed st) (mStream st) (mThread st) (cout st)
    (notified st) (invoked st ++ [e]).

(** The state a freshly constructed [Log] starts in (lines 106-118). *)
Definition init : State :=
  mkState [] None None false false false "" Waiting [] 0 [].

(** ** Iterators into [mLogQueue]

    An iterator is the index of its node, [None] for [std::end].  Nodes are
    only erased at the cursor and only added at the tail, so the index of a
    node that an iterator designates never changes behind its back. *)

Definition iter_at (i : nat) (q : list LogEntry) : option nat :=
  if decide (i < length q) then Some i else None.

(** [std::begin(mLogQueue)] *)
Definition begin_ (q : list LogEntry) : option nat := iter_at 0 q.

(** [std::prev(std::end(mLogQueue))] *)
Definition prev_end (q : list LogEntry) : option nat := iter_at (length q - 1) q.

(** [*mCurrentLog]; [None] where the C++ dereference is undefined. *)
Definition deref (st : State) : option LogEntry :=
  i ← mCurrentLog st; mLogQueue st !! i.

(** [std::find_if(first, std::end(q), pred)] *)
Definition find_if (first : option nat) (P : LogEntry → Prop)
    `{∀ e, Decision (P e)} (q : list LogEntry) : option nat :=
  i ← first; (λ r, i + r.1) <$> list_find P (drop i q).

(** ** The stream *)

(** [Log::handleSync] (lines 120-123) *)
Definition handleSync (st : State) : State := set_flushed true st.

(** [mStream << value]: the characters go to the buffer; a flushing
    manipulator reaches [LogBuf::sync] (lines 66-70), which calls
    [handleSync]. *)
Definition stream_put (v : Value) (st : State) : State :=
  let st := set_stream (mStream st +:+ rendered v) st in
  if flushes v then handleSync st else st.

(** [entry.mFunctor()] *)
Definition mFunctor (e : LogEntry) (st : State) : State :=
  stream_put (mValue e) (record_call e st).

(** [Log::flush] (lines 217-221), with [getStringAndClear] inlined. *)
Definition flush (st : State) : State :=
  let s := mStream st in
  let st := set_stream "" st in
  let st := cout_write s st in
  set_flushed false st.

(** ** [Log::write] (lines 190-215), run under [std::lock_guard] *)
Definition write (id : ThreadId) (value : Value) (st : State) : State :=
  let st := set_queue (mLogQueue st ++ [mkEntry id value]) st in
  match mCurrentThreadId st with
  | None =>
      let st := set_cursor (begin_ (mLogQueue st)) st in
      let st := set_owner (mThreadId <$> deref st) st in
      notify_one st
  | Some owner =>
      if decide (owner = id) then
        let st :=
          match mCurrentLog st with
          | None => set_cursor (prev_end (mLogQueue st)) st
          | Some _ => st
          end in
        notify_one st
      else st
  end.

(** ** [Log::serialize] (lines 125-188) *)

(** The predicate handed to [wait] (line 131). *)
Definition wake_pred (st : State) : bool :=
  mClosing st || bool_decide (mCurrentLog st ≠ None).

(** The condition of the [do ... while] (line 186). *)
Definition loop_cond (st : State) : bool :=
  match deref st with
  | Some e => bool_decide (mCurrentThreadId st = Some (mThreadId e))
  | None => false
  end.

(** One pass through the body of the [do ... while] (lines 163-185) followed
    by the test of line 186.  The boolean tells whether the loop goes round
    again.  [None] where the body dereferences an iterator that designates no
    node. *)
Definition do_body (st : State) : option (State * bool) :=
  i ← mCurrentLog st;
  e ← mLogQueue st !! i;
  let st := mFunctor e st in
  if mFlushed st then
    let st := flush st in
    let st := set_queue (delete i (mLogQueue st)) st in
    let st := set_cursor (begin_ (mLogQueue st)) st in
    match mCurrentLog st with
    | None => Some (set_owner None st, false)
    | Some _ =>
        let st := set_owner (mThreadId <$> deref st) st in
        Some (st, loop_cond st)
    end
  else
    let st := set_queue (delete i (mLogQueue st)) st in
    let st :=
      set_cursor
        (find_if (iter_at i (mLogQueue st))
           (λ entry, mCurrentThreadId st = Some (mThreadId entry))
           (mLogQueue st)) st in
    Some (st, loop_cond st).

(** The inner [while] of the closing path (lines 144-155).  Every pass brings
    the cursor one node closer to the end, so [length mLogQueue] passes are
    enough: [close_inner_spec] below shows that the loop has exited by then,
    with the cursor at the end. *)
Fixpoint close_inner (fuel : nat) (st : State) : State :=
  match fuel with
  | 0 => st
  | S fuel =>
      match mCurrentLog st with
      | None => st
      | Some i =>
          match mLogQueue st !! i with
          | None => st
          | Some e =>
              if decide (mCurrentThreadId st = Some (mThreadId e)) then
                let st := mFunctor e st in
                let st := set_queue (delete i (mLogQueue st)) st in
                close_inner fuel (set_cursor (iter_at i (mLogQueue st)) st)
              else
                close_inner fuel (set_cursor (iter_at (S i) (mLogQueue st)) st)
          end
      end
  end.

(** The outer [while] of the closing path (lines 136-156).  By
    [close_outer_spec] below the fuel given in [closing_path] is enough for
    the loop to exit, with the queue empty. *)
Fixpoint close_outer (fuel : nat) (st : State) : State :=
  match fuel with
  | 0 => st
  | S fuel =>
      match mLogQueue st with
      | [] => st
      | _ :: _ =>
          let st :=
            match mCurrentLog st with
            | None =>
                let st := set_cursor (begin_ (mLogQueue st)) st in
                set_owner (mThreadId <$> deref st) st
            | Some _ => st
            end in
          close_outer fuel (close_inner (length (mLogQueue st)) st)
      end
  end.

(** Lines 134-160: drain everything, flush, leave the loop.  A pass of the
    outer loop that starts with the cursor at the end erases the head, and
    only the first pass can start elsewhere. *)
Definition closing_path (st : State) : State :=
  flush (close_outer (S (length (mLogQueue st))) st).

(** ** The threads *)

Inductive Label :=
| Append (id : ThreadId) (value : Value)   (* a producer runs [operator<<] *)
| Close                                    (* [~Log] up to [join] *)
| Serialize.                               (* the serialize thread moves on *)

(** One trip round the [do ... while]: the body, then either back to the top
    of the body or out of the loop, where the [unique_lock] of line 129 goes
    out of scope and the thread returns to [wait]. *)
Definition iteration (st : State) : option State :=
  '(st', again) ← do_body st;
  Some (if again : bool then set_thread Draining st'
        else set_thread Waiting (set_mutex false st')).

(** What the serialize thread does next.  [None]: it cannot move, because it
    is blocked in [wait] or has finished; by [serialize_progress] below that
    is all [None] stands for in the states the program reaches. *)
Definition serialize (st : State) : option State :=
  match mThread st with
  | Waiting =>
      if mLogMutex st then None
      else if wake_pred st then Some (set_thread Woken (set_mutex true st))
      else None
  | Woken =>
      if mClosing st then
        Some (set_thread Terminated (set_mutex false (closing_path st)))
      else iteration st
  | Draining => iteration st
  | Terminated => None
  end.

(** The critical section of [~Log] (lines 19-22). *)
Definition close_locked (st : State) : State := set_closing true st.

(** [~Log] (lines 17-26) up to the call of [join], which returns once the
    serialize thread is [Terminated]: the critical section, then the
    [notify_one] of line 24, which is called after the lock is released.
    That call changes nothing but the count of the notifications, which no
    function reads, so the two are taken in one step; by
    [notify_one_commutes] below it may as well come after any step that
    another thread takes in between. *)
Definition close (st : State) : State := notify_one (close_locked st).

(** One step of the whole program.  A producer and the destructor take the
    mutex for the length of their critical section, so they move only while
    the serialize thread does not hold it. *)
Definition step (l : Label) (st : State) : option State :=
  match l with
  | Append id value => if mLogMutex st then None else Some (write id value st)
  | Close => if mLogMutex st then None else Some (close st)
  | Serialize => serialize st
  end.

Fixpoint run (ls : list Label) (st : State) : option State :=
  match ls with
  | [] => Some st
  | l :: ls => st' ← step l st; run ls st'
  end.

Definition reachable (st : State) : Prop := ∃ ls, run ls init = Some st.

(** ** Vocabulary of the statements *)

(** The text a sequence of values leaves in the stream. *)
Definition rendering (vs : list Value) : string :=
  foldr (λ v s, rendered v +:+ s) "" vs.

(** The values a sequence of entries captured. *)
Definition values (es : list LogEntry) : list Value := mValue <$> es.

(** The queued entries of one thread, in arrival order. *)
Definition entries_of (t : ThreadId) (q : list LogEntry) : list LogEntry :=
  filter (λ e, mThreadId e = t) q.

(** The values thread [t] has handed to [operator<<] along a run, oldest
    first. *)
Definition appended (t : ThreadId) (ls : list Label) : list Value :=
  omap (λ l, match l with
             | Append id value => if decide (id = t) then Some value else None
             | _ => None
             end) ls.

(** [seg] is a line of the values [vs]: a run of values none of which
    flushes, closed by one that does, and starting where [vs] starts or right
    after an earlier value that flushes. *)
Definition line_of (vs seg : list Value) : Prop :=
  ∃ pre body f post,
    vs = pre ++ body ++ f :: post ∧ seg = body ++ [f] ∧
    (pre = [] ∨ ∃ pre' f', pre = pre' ++ [f'] ∧ flushes f' = true) ∧
    Forall (λ v, flushes v = false) body ∧ flushes f = true.

(** A sequence of appends, and the entries they queue. *)
Definition appends (ws : list (ThreadId * Value)) : list Label :=
  (λ w, Append w.1 w.2) <$> ws.

Definition entries (ws : list (ThreadId * Value)) : list LogEntry :=
  (λ w, mkEntry w.1 w.2) <$> ws.

(** The order in which the closing path invokes the queued closures when it
    takes the threads in the order [ts]. *)
Definition drain_order (ts : list ThreadId) (q : list LogEntry) :=
  concat ((λ t, entries_of t q) <$> ts).

(** [ts] names each thread that has something queued, once. *)
Definition threads_of (q : list LogEntry) (ts : list ThreadId) : Prop :=
  NoDup ts ∧ ∀ t, t ∈ ts ↔ ∃ e, e ∈ q ∧ mThreadId e = t.

(** The serialize thread is about to run the body of the [do ... while]. *)
Definition in_loop (st : State) : Prop :=
  (mThread st = Woken ∨ mThread st = Draining) ∧ mClosing st = false.

(** ** The invariant of the scheduler state *)

(** The cursor designates the first queued entry of thread [o]. *)
Definition first_of (o : option ThreadId) (q : list LogEntry) (i : nat) : Prop :=
  ∃ e, q !! i = Some e ∧ o = Some (mThreadId e) ∧
       ∀ j e', j < i → q !! j = Some e' → mThreadId e' ≠ mThreadId e.

(** The three members the mutex guards, taken together: nobody owns the floor
    only while the queue is empty; a cursor that is not at the end designates
    the first queued entry of the owner; a cursor at the end means that the
    owner has nothing queued. *)
Record Sched (q : list LogEntry) (cur : option nat) (o : option ThreadId)
    : Prop := mkSched {
  sched_unowned : o = None → q = [] ∧ cur = None;
  sched_cursor : ∀ i, cur = Some i → first_of o q i;
  sched_dry : cur = None → ∀ e, e ∈ q → o ≠ Some (mThreadId e)
}.

(** What holds between any two steps, hence in particular whenever the mutex
    is free. *)
Record Inv (st : State) : Prop := mkInv {
  inv_sched : Sched (mLogQueue st) (mCurrentLog st) (mCurrentThreadId st);
  inv_flushed : mFlushed st = false;
  inv_mutex : mLogMutex st = holds_mutex (mThread st);
  inv_woken : mThread st = Woken → wake_pred st = true;
  inv_draining :
    mThread st = Draining → mClosing st = false ∧ mCurrentLog st ≠ None;
  inv_terminated : mThread st = Terminated → mClosing st = true
}.

(** ** Closed forms of the loop bodies *)

(** The state after the flushing branch (lines 167-178). *)
Definition after_flush (i : nat) (e : LogEntry) (st : State) : State :=
  let q := delete i (mLogQueue st) in
  mkState q (begin_ q) (mThreadId <$> head q) (mLogMutex st) (mClosing st)
    false "" (mThread st) (cout st ++ [mStream st +:+ rendered (mValue e)])
    (notified st) (invoked st ++ [e]).

(** The state after the other branch (lines 182-184). *)
Definition after_keep (i : nat) (e : LogEntry) (st : State) : State :=
  let q := delete i (mLogQueue st) in
  mkState q
    (find_if (iter_at i q)
       (λ entry, mCurrentThreadId st = Some (mThreadId entry)) q)
    (mCurrentThreadId st) (mLogMutex st) (mClosing st)
    (mFlushed st) (mStream st +:+ rendered (mValue e)) (mThread st) (cout st)
    (notified st) (invoked st ++ [e]).

(** The entries the inner loop invokes when it starts at node [i] on behalf
    of [o], and the queue it leaves. *)
Definition served (o : option ThreadId) (i : nat) (q : list LogEntry) :=
  filter (λ e, o = Some (mThreadId e)) (drop i q).

Definition swept (o : option ThreadId) (i : nat) (q : list LogEntry) :=
  take i q ++ filter (λ e, o ≠ Some (mThreadId e)) (drop i q).

Definition after_sweep (i : nat) (st : State) : State :=
  let o := mCurrentThreadId st in
  let q := mLogQueue st in
  mkState (swept o i q) None o (mLogMutex st) (mClosing st)
    (mFlushed st || existsb (λ e, flushes (mValue e)) (served o i q))
    (mStream st +:+ rendering (values (served o i q)))
    (mThread st) (cout st) (notified st) (invoked st ++ served o i q).

(** [st'] is [st] with the queue emptied by invoking [order]. *)
Record Drained (order : list LogEntry) (st st' : State) : Prop := mkDrained {
  dr_queue : mLogQueue st' = [];
  dr_cursor : mCurrentLog st' = None;
  dr_stream : mStream st' = mStream st +:+ rendering (values order);
  dr_invoked : invoked st' = invoked st ++ order;
  dr_cout : cout st' = cout st;
  dr_notified : notified st' = notified st;
  dr_closing : mClosing st' = mClosing st;
  dr_thread : mThread st' = mThread st;
  dr_mutex : mLogMutex st' = mLogMutex st
}.

(** ** The run so far and the state it led to *)

(** The closures invoked so far, cut after every flush: complete lines
    [segs], each of a single thread, then the entries [rest] invoked since the
    last flush, which belong to the owner of the floor.  The sink holds the
    lines, the stream holds the rest. *)
Record Lines (st : State) (segs : list (list LogEntry)) (rest : list LogEntry)
    : Prop := mkLines {
  lines_invoked : invoked st = concat segs ++ rest;
  lines_segs :
    Forall (λ seg, ∃ body f,
              seg = body ++ [f] ∧ flushes (mValue f) = true ∧
              Forall (λ e, mThreadId e = mThreadId f ∧
                           flushes (mValue e) = false) body) segs;
  lines_cout : cout st = (λ seg, rendering (values seg)) <$> segs;
  lines_stream : mStream st = rendering (values rest);
  lines_rest :
    Forall (λ e, mCurrentThreadId st = Some (mThreadId e) ∧
                 flushes (mValue e) = false) rest
}.

(** What the run [ls] that led to [st] has to do with [st], as long as the
    destructor has not run. *)
Definition Hist (ls : list Label) (st : State) : Prop :=
  mClosing st = false →
  (∀ t, appended t ls = values (entries_of t (invoked st ++ mLogQueue st))) ∧
  ∃ segs rest, Lines st segs rest.

(** ** Runs and states used as examples *)

(** A state the program reaches after one append, before the serialize
    thread has woken up: thread 1 owns the floor and the cursor designates
    its pending entry. *)
Definition one_pending : State := write 1 (Text "a") init.

(** The floor is free again after thread 1 has had a line flushed. *)
Definition line_flushed : list Label :=
  [Append 1 (Text "a"); Append 1 Endl; Serialize; Serialize; Serialize].

Definition after_line_flushed : State :=
  mkState [] None None false false false "" Waiting ["a" +:+ newline] 2
    [mkEntry 1 (Text "a"); mkEntry 1 Endl].

(** Two threads have appended and the serialize thread has executed the
    first entry of thread 1. *)
Definition two_threads : list Label :=
  [Append 1 (Text "a"); Append 2 (Text "x"); Append 1 (Text "b");
   Serialize; Serialize].

Definition after_two_threads : State :=
  mkState [mkEntry 2 (Text "x"); mkEntry 1 (Text "b")] (Some 1) (Some 1)
    true false false "a" Draining [] 2 [mkEntry 1 (Text "a")].

(** Thread 2 has slipped an entry between the text of thread 1 and its
    [std::endl]; the loop has executed the text and stands on the
    [std::endl]. *)
Definition rotation_run : list Label :=
  [Append 1 (Text "a"); Append 2 (Text "x"); Append 1 Endl;
   Serialize; Serialize].

Definition before_rotation : State :=
  mkState [mkEntry 2 (Text "x"); mkEntry 1 Endl] (Some 1) (Some 1)
    true false false "a" Draining [] 2 [mkEntry 1 (Text "a")].

(** The same with two texts of thread 1, the loop about to execute the
    first. *)
Definition skip_run : list Label :=
  [Append 1 (Text "a"); Append 2 (Text "x"); Append 1 (Text "b"); Serialize].

Definition before_skip : State :=
  mkState [mkEntry 1 (Text "a"); mkEntry 2 (Text "x"); mkEntry 1 (Text "b")]
    (Some 0) (Some 1) true false false "" Woken [] 2 [].

(** Thread 1 has written without flushing and the loop has run dry; what
    threads 2 and 3 append meanwhile. *)
Definition other_appends : list (ThreadId * Value) :=
  [(2, Text "x"); (3, Endl); (2, Endl)].

Definition idle_run : list Label :=
  [Append 1 (Text "a"); Serialize; Serialize].

Definition idle_owner : State :=
  mkState [] None (Some 1) false false false "a" Waiting [] 1
    [mkEntry 1 (Text "a")].

(** The serialize thread has woken up on a queue that holds a single
    [std::endl] of thread 1. *)
Definition about_to_flush : State :=
  mkState [mkEntry 1 Endl] (Some 0) (Some 1) true false false "" Woken [] 1 [].

(** Threads 1 and 2 have written, interleaved, without flushing; the loop has
    drained thread 1 and gone back to [wait]. *)
Definition interleaved : list Label :=
  [Append 1 (Text "a"); Append 2 (Text "x"); Append 1 (Text "b");
   Append 3 (Text "p"); Append 2 (Text "y");
   Serialize; Serialize; Serialize].

Definition after_interleaved : State :=
  mkState [mkEntry 2 (Text "x"); mkEntry 3 (Text "p"); mkEntry 2 (Text "y")]
    None (Some 1) false false false "ab" Waiting [] 2
    [mkEntry 1 (Text "a"); mkEntry 1 (Text "b")].

(** Thread 2 has slipped an entry between those of thread 1; the loop has
    executed the two texts of thread 1 and stands on its [std::endl]. *)
Definition before_flush : list Label :=
  [Append 1 (Text "abc"); Append 2 (Text "x"); Append 1 (Text "42");
   Append 1 Endl; Append 1 (Text "more");
   Serialize; Serialize; Serialize].

Definition at_flush : State :=
  mkState [mkEntry 2 (Text "x"); mkEntry 1 Endl; mkEntry 1 (Text "more")]
    (Some 1) (Some 1) true false false "abc42" Draining [] 4
    [mkEntry 1 (Text "abc"); mkEntry 1 (Text "42")].

(** Three threads have appended, none has flushed, and the loop has drained
    what it could. *)
Definition quiet : list Label :=
  [Append 1 (Text "a"); Append 2 (Text "x"); Append 1 (Text "b");
   Append 3 Manip; Serialize; Serialize; Serialize; Append 2 (Text "y")].

Definition after_quiet : State :=
  mkState [mkEntry 2 (Text "x"); mkEntry 3 Manip; mkEntry 2 (Text "y")]
    None (Some 1) false false false "ab" Waiting [] 2
    [mkEntry 1 (Text "a"); mkEntry 1 (Text "b")].

(** Thread 1 has left an unfinished line in the stream; thread 2 appends a
    whole line; then the destructor runs. *)
Definition shutdown_race : list Label :=
  [Append 1 (Text "a"); Serialize; Serialize;
   Append 2 (Text "x"); Append 2 Endl;
   Close; Serialize; Serialize].

Definition after_shutdown_race : State :=
  mkState [] None (Some 2) false true false "" Terminated
    ["ax" +:+ newline] 2
    [mkEntry 1 (Text "a"); mkEntry 2 (Text "x"); mkEntry 2 Endl].

(** ** Vocabulary of the further properties *)

(** The entries the appends of a run have put into the queue, oldest
    first. *)
Definition queued_by (ls : list Label) : list LogEntry :=
  omap (λ l, match l with
             | Append id value => Some (mkEntry id value)
             | _ => None
             end) ls.

(** Everything written to [std::cout] so far, as the one text a reader of the
    stream sees. *)
Definition sink_text (st : State) : string :=
  foldr String.append "" (cout st).

(** The entries whose closure flushes. *)
Definition flushing (es : list LogEntry) : list LogEntry :=
  filter (λ e, flushes (mValue e) = true) es.

(** A whole line: entries of one thread, none of which flushes but the last,
    which does. *)
Definition whole_line (seg : list LogEntry) : Prop :=
  ∃ body f,
    seg = body ++ [f] ∧ flushes (mValue f) = true ∧
    Forall (λ e, mThreadId e = mThreadId f ∧ flushes (mValue e) = false) body.

(** A thread that has appended nothing, or whose last append flushes. *)
Definition ends_flushed (vs : list Value) : Prop :=
  vs = [] ∨ ∃ vs' f, vs = vs' ++ [f] ∧ flushes f = true.

(** What a run [ls] has to do with the state [st] it led to, shutdown
    included: every entry appended is either invoked or still queued, each
    thread's in the order of its appends; the characters written, followed by
    those in the buffer, are those of the invoked closures; until the closing
    path has run the invoked closures are whole lines followed by an
    unfinished line of the owner, who is one of the producers. *)
Record Past (ls : list Label) (st : State) : Prop := mkPast {
  past_entries : ∀ t,
    entries_of t (queued_by ls) = entries_of t (invoked st ++ mLogQueue st);
  past_perm : invoked st ++ mLogQueue st ≡ₚ queued_by ls;
  past_text : sink_text st +:+ mStream st = rendering (values (invoked st));
  past_lines : mThread st ≠ Terminated → ∃ segs rest, Lines st segs rest;
  past_owner : mThread st ≠ Terminated → ∀ a,
    mCurrentThreadId st = Some a → entries_of a (queued_by ls) ≠ [];
  past_done : mThread st = Terminated → mStream st = ""
}.

(** The text a sequence of entries leaves in the stream. *)
Definition render (seg : list LogEntry) : string := rendering (values seg).

(** The entries of [seg] all come from thread [t]. *)
Definition written_by (t : ThreadId) (seg : list LogEntry) : Prop :=
  Forall (λ e, mThreadId e = t) seg.

Global Instance written_by_dec t seg : Decision (written_by t seg) :=
  Forall_dec (λ e, mThreadId e = t) seg.

(** ** [main] (lines 224-245) *)

(** What the three threads of [main] stream into the log: the thread that
    runs [main] (lines 232-235), [t1] (line 229) and [t2] (line 238).  An
    [int] is rendered in decimal. *)
Definition main_chain : list Value := [Text "abc"; Text "42"; Endl].

Definition t1_chain : list Value :=
  [Text "t1 1"; Text "1"; Endl; Text "t1 2"; Text "2"; Endl].

Definition t2_chain : list Value :=
  [Text "t2 1"; Text "3"; Endl; Text "t2 2"; Text "4"; Endl].

(** The steps of a run of [main] before [log] is destroyed: the three
    threads, whose ids are [m], [t1] and [t2], make the appends of their
    statements, interleaved in any way with each other and with the steps of
    the serialize thread, and nobody else appends. *)
Record main_body (m t1 t2 : ThreadId) (body : list Label) : Prop := mkMain {
  main_ids : NoDup [m; t1; t2];
  main_own : appended m body = main_chain;
  main_t1 : appended t1 body = t1_chain;
  main_t2 : appended t2 body = t2_chain;
  main_others : ∀ t, t ∉ [m; t1; t2] → appended t body = []
}.

(** [return 0] destroys [log] once [t1] and [t2] are joined: [~Log] sets
    [mClosing], and its [join] returns when the serialize thread has woken
    up and run the closing path. *)
Definition main_end : list Label := [Close; Serialize; Serialize].

(** The lines of the three threads. *)
Definition main_line : string := "abc42" +:+ newline.

Definition t1_lines : list string :=
  ["t1 11" +:+ newline; "t1 22" +:+ newline].

Definition t2_lines : list string :=
  ["t2 13" +:+ newline; "t2 24" +:+ newline].

(** ** Runs and states used as examples of the further properties *)

(** Two threads write a line each, the loop drains both; two more threads
    append without flushing and the destructor runs. *)
Definition whole_run : list Label :=
  [Append 1 (Text "a"); Append 2 (Text "x"); Append 1 Endl; Append 2 Endl;
   Serialize; Serialize; Serialize; Serialize; Serialize;
   Append 3 (Text "p"); Append 1 (Text "b"); Close; Serialize; Serialize].

Definition after_whole_run : State :=
  mkState [] None (Some 1) false true false "" Terminated
    ["a" +:+ newline; "x" +:+ newline; "pb"] 4
    [mkEntry 1 (Text "a"); mkEntry 1 Endl; mkEntry 2 (Text "x");
     mkEntry 2 Endl; mkEntry 3 (Text "p"); mkEntry 1 (Text "b")].

(** The loop in the middle of a pass, on the [std::endl] of thread 1, and one
    step later, when the floor has gone to thread 2. *)
Definition midway_run : list Label :=
  [Append 1 (Text "a"); Append 2 (Text "x"); Append 1 Endl;
   Append 2 (Text "y"); Append 1 (Text "b"); Serialize; Serialize].

Definition midway : State :=
  mkState [mkEntry 2 (Text "x"); mkEntry 1 Endl; mkEntry 2 (Text "y");
           mkEntry 1 (Text "b")]
    (Some 1) (Some 1) true false false "a" Draining [] 3
    [mkEntry 1 (Text "a")].

Definition past_flush : State :=
  mkState [mkEntry 2 (Text "x"); mkEntry 2 (Text "y"); mkEntry 1 (Text "b")]
    (Some 0) (Some 2) true false false "" Draining ["a" +:+ newline] 3
    [mkEntry 1 (Text "a"); mkEntry 1 Endl].

(** A line has been written and nobody owns the floor. *)
Definition line_run : list Label :=
  [Append 1 (Text "a"); Append 1 Endl; Serialize; Serialize; Serialize].

Definition line_written : State :=
  mkState [] None None false false false "" Waiting ["a" +:+ newline] 2
    [mkEntry 1 (Text "a"); mkEntry 1 Endl].

(** Thread 1 holds the floor with an unfinished line; the lines of threads 2
    and 3 wait. *)
Definition waiting_run : list Label :=
  [Append 1 (Text "a"); Append 2 (Text "x"); Append 2 Endl;
   Serialize; Serialize; Append 3 Endl].

Definition others_waiting : State :=
  mkState [mkEntry 2 (Text "x"); mkEntry 2 Endl; mkEntry 3 Endl]
    None (Some 1) false false false "a" Waiting [] 1 [mkEntry 1 (Text "a")].

(** The same, thread 1 then finishing its line, and the destructor running
    before the loop has taken it up. *)
Definition last_lines_run : list Label :=
  [Append 1 (Text "a"); Append 2 (Text "x"); Append 2 Endl;
   Serialize; Serialize; Append 1 (Text "b"); Append 1 Endl; Append 3 Endl;
   Close; Serialize].

Definition at_shutdown : State :=
  mkState [mkEntry 2 (Text "x"); mkEntry 2 Endl; mkEntry 1 (Text "b");
           mkEntry 1 Endl; mkEntry 3 Endl]
    (Some 2) (Some 1) true true false "a" Woken [] 4 [mkEntry 1 (Text "a")].

(** Thread 1 alone: a line, then two texts, the loop draining in between. *)
Definition alone_run : list Label :=
  [Append 1 (Text "a"); Append 1 Endl; Append 1 (Text "b");
   Serialize; Serialize; Serialize; Serialize;
   Append 1 (Text "c"); Serialize; Serialize].

Definition alone_asleep : State :=
  mkState [] None (Some 1) false false false "bc" Waiting ["a" +:+ newline] 4
    [mkEntry 1 (Text "a"); mkEntry 1 Endl; mkEntry 1 (Text "b");
     mkEntry 1 (Text "c")].

(** A run of [main], with thread ids 0, 1 and 2: the loop writes the first
    line of [t1] and the line of [main], the closing path the other three. *)
Definition main_example : list Label :=
  [Append 1 (Text "t1 1"); Append 0 (Text "abc"); Serialize; Serialize;
   Append 1 (Text "1"); Append 0 (Text "42"); Append 0 Endl;
   Append 2 (Text "t2 1"); Serialize; Serialize; Append 1 Endl;
   Append 2 (Text "3");
   Serialize; Serialize; Serialize; Serialize; Serialize; Serialize; Serialize;
   Append 1 (Text "t1 2"); Append 2 Endl; Append 2 (Text "t2 2");
   Append 1 (Text "2"); Append 2 (Text "4"); Append 1 Endl; Append 2 Endl].

Definition main_finished : State :=
  mkState [] None (Some 1) false true false "" Terminated
    ["t1 11" +:+ newline; "abc42" +:+ newline;
     "t2 13" +:+ newline +:+ "t2 24" +:+ newline +:+ "t1 22" +:+ newline] 8
    (entries [(1, Text "t1 1"); (1, Text "1"); (1, Endl);
              (0, Text "abc"); (0, Text "42"); (0, Endl);
              (2, Text "t2 1"); (2, Text "3"); (2, Endl);
              (2, Text "t2 2"); (2, Text "4"); (2, Endl);
              (1, Text "t1 2"); (1, Text "2"); (1, Endl)]).

(** ** Strings, iterators and list surgery *)

Lemma string_app_assoc (a b c : string) : (a +:+ b) +:+ c = a +:+ b +:+ c.
Proof.
  induction a as [|x a IH]; [reflexivity|].
  change (String x ((a +:+ b) +:+ c) = String x (a +:+ b +:+ c)).
  by rewrite IH.
Qed.

Lemma string_app_nil_r (a : string) : a +:+ "" = a.
Proof.
  induction a as [|x a IH]; [reflexivity|].
  change (String x (a +:+ "") = String x a). by rewrite IH.
Qed.

Lemma iter_at_Some i j q : iter_at i q = Some j → j = i ∧ i < length q.
Proof. unfold iter_at. case_decide; naive_solver. Qed.

Lemma iter_at_None i q : iter_at i q = None → length q ≤ i.
Proof. unfold iter_at. case_decide; [done|lia]. Qed.

Lemma iter_at_lt i q : i < length q → iter_at i q = Some i.
Proof. unfold iter_at. case_decide; [done|lia]. Qed.

Lemma iter_at_ge i q : length q ≤ i → iter_at i q = None.
Proof. unfold iter_at. case_decide; [lia|done]. Qed.

Lemma begin_nil : begin_ [] = None.
Proof. reflexivity. Qed.

Lemma begin_cons e q : begin_ (e :: q) = Some 0.
Proof. unfold begin_. apply iter_at_lt. simpl. lia. Qed.

Lemma prev_end_snoc q e : prev_end (q ++ [e]) = Some (length q).
Proof.
  unfold prev_end. rewrite length_app. simpl.
  replace (length q + 1 - 1) with (length q) by lia.
  rewrite iter_at_lt; [done|]. rewrite length_app. simpl. lia.
Qed.

Section find_if.
Context (P : LogEntry → Prop) `{!∀ e, Decision (P e)}.

Lemma find_if_Some i j q :
  find_if (iter_at i q) P q = Some j →
  i ≤ j ∧ (∃ e, q !! j = Some e ∧ P e) ∧
  ∀ k e, i ≤ k → k < j → q !! k = Some e → ¬ P e.
Proof.
  unfold find_if. intros Hfi.
  destruct (iter_at i q) as [i'|] eqn:Hi; [|done].
  apply iter_at_Some in Hi as [-> Hi]. simpl in Hfi.
  destruct (list_find P (drop i q)) as [[r e]|] eqn:Hf; [|done].
  simpl in Hfi. injection Hfi as <-.
  apply list_find_Some in Hf as (Hl & HP & Hbefore).
  rewrite lookup_drop in Hl. split; [lia|]. split; [eauto|].
  intros k e' Hik Hkj Hk. apply (Hbefore (k - i) e'); [|lia].
  rewrite lookup_drop. by replace (i + (k - i)) with k by lia.
Qed.

Lemma find_if_None i q :
  find_if (iter_at i q) P q = None →
  ∀ k e, i ≤ k → q !! k = Some e → ¬ P e.
Proof.
  unfold find_if. intros Hfi k e Hik Hk.
  destruct (iter_at i q) as [i'|] eqn:Hi.
  - apply iter_at_Some in Hi as [-> Hi]. simpl in Hfi.
    destruct (list_find P (drop i q)) as [[r e']|] eqn:Hf; [done|].
    apply list_find_None in Hf. rewrite Forall_forall in Hf.
    apply Hf. apply list_elem_of_lookup. exists (k - i).
    rewrite lookup_drop. by replace (i + (k - i)) with k by lia.
  - apply iter_at_None in Hi. apply lookup_lt_Some in Hk. lia.
Qed.
End find_if.

Lemma first_of_snoc o q i e0 : first_of o q i → first_of o (q ++ [e0]) i.
Proof.
  intros (e & He & Hoe & Hb). exists e.
  split; [by apply lookup_app_l_Some|]. split; [done|].
  intros j e' Hj Hl. apply (Hb j e' Hj).
  rewrite lookup_app_l in Hl; [done|]. apply lookup_lt_Some in He. lia.
Qed.

(** ** The invariant holds initially and after an append *)

Lemma Sched_init : Sched [] None None.
Proof. by split. Qed.

Lemma Sched_head q : Sched q (begin_ q) (mThreadId <$> head q).
Proof.
  destruct q as [|h q]; [apply Sched_init|]. rewrite begin_cons. simpl.
  split; try done. intros i [= <-]. exists h. split; [done|].
  split; [done|]. intros; lia.
Qed.

Lemma Sched_write_other q cur o id value :
  o ≠ Some id → o ≠ None →
  Sched q cur o → Sched (q ++ [mkEntry id value]) cur o.
Proof.
  intros Hne Hsome [Hn Hc Hd]. split.
  - done.
  - intros i Hi. by apply first_of_snoc, Hc.
  - intros Hi e [He|He]%elem_of_app; [by apply Hd|].
    by apply list_elem_of_singleton in He as ->.
Qed.

Lemma Sched_write_owner q cur id value :
  Sched q cur (Some id) →
  Sched (q ++ [mkEntry id value])
    (match cur with
     | None => prev_end (q ++ [mkEntry id value])
     | Some _ => cur
     end) (Some id).
Proof.
  intros [Hn Hc Hd]. destruct cur as [i|].
  - split; try done. intros i' [= <-]. by apply first_of_snoc, Hc.
  - rewrite prev_end_snoc. split; try done.
    intros i [= <-]. exists (mkEntry id value).
    split; [by rewrite lookup_app_r, Nat.sub_diag by lia|].
    split; [done|]. simpl. intros j e' Hj Hl Heq.
    rewrite lookup_app_l in Hl by done.
    apply (Hd eq_refl e'); [by eapply list_elem_of_lookup_2|]. by rewrite Heq.
Qed.

Lemma Sched_erase_find q i o :
  Sched q (Some i) o →
  let q' := delete i q in
  Sched q' (find_if (iter_at i q') (λ entry, o = Some (mThreadId entry)) q') o.
Proof.
  intros [Hn Hc Hd] q'. destruct (Hc i eq_refl) as (e & He & Hoe & Hb).
  split.
  - intros ->. done.
  - intros j Hj. apply find_if_Some in Hj as (Hij & (e' & He' & Hoe') & Hmid).
    exists e'. split; [done|]. split; [done|].
    intros k e'' Hk Hl Heq. destruct (decide (k < i)) as [Hki|Hki].
    + unfold q' in Hl. rewrite list_lookup_delete_lt in Hl by done.
      apply (Hb k e'' Hki Hl). congruence.
    + apply (Hmid k e''); [lia|done|done|]. congruence.
  - intros Hf e' [k Hk]%list_elem_of_lookup Heq.
    destruct (decide (k < i)) as [Hki|Hki].
    + unfold q' in Hk. rewrite list_lookup_delete_lt in Hk by done.
      apply (Hb k e' Hki Hk). congruence.
    + by apply (find_if_None _ _ _ Hf k e'); [lia|..].
Qed.

Lemma init_Inv : Inv init.
Proof. split; simpl; done. Qed.

Lemma write_Inv id value st : Inv st → Inv (write id value st).
Proof.
  intros [Hs Hf Hm Hw Hdr Ht]. unfold write. simpl.
  destruct (mCurrentThreadId st) as [o|] eqn:Ho.
  - destruct (decide (o = id)) as [->|Hne].
    + apply (Sched_write_owner _ _ _ value) in Hs.
      destruct (mCurrentLog st) as [i|] eqn:Hi.
      * split; simpl; rewrite ?Ho, ?Hi; done.
      * split; simpl; rewrite ?Ho; try done.
        -- intros Hwk. unfold wake_pred in *. simpl.
           rewrite prev_end_snoc. by rewrite orb_true_r.
        -- intros Hdra. by destruct (Hdr Hdra).
    + split; simpl; rewrite ?Ho; try done.
      apply Sched_write_other; [congruence|done|done].
  - destruct (sched_unowned _ _ _ Hs eq_refl) as [Hq Hcur]. rewrite Hq. simpl.
    split; simpl; try done.
    + apply (Sched_head [mkEntry id value]).
    + intros _. unfold wake_pred. simpl. by rewrite orb_true_r.
    + intros Hdra. destruct (Hdr Hdra). congruence.
Qed.

(** ** What one pass of the drain loop does *)

Lemma mFunctor_flushed e st :
  mFlushed (mFunctor e st) = mFlushed st || flushes (mValue e).
Proof.
  unfold mFunctor, stream_put. destruct (flushes (mValue e)); simpl.
  - by rewrite orb_true_r.
  - by rewrite orb_false_r.
Qed.

Lemma do_body_flush st i e :
  mCurrentLog st = Some i → mLogQueue st !! i = Some e →
  mFlushed (mFunctor e st) = true →
  do_body st =
    Some (after_flush i e st, bool_decide (delete i (mLogQueue st) ≠ [])).
Proof.
  intros Hi He Hfl. unfold do_body. rewrite Hi. simpl. rewrite He. simpl.
  rewrite Hfl. unfold after_flush. rewrite mFunctor_flushed in Hfl.
  unfold mFunctor, stream_put, flush, handleSync.
  destruct (flushes (mValue e)); simpl;
    destruct (delete i (mLogQueue st)) as [|h q'] eqn:Hd; simpl;
    rewrite ?begin_nil, ?begin_cons; simpl; try done.
  - unfold loop_cond, deref. simpl. by rewrite !bool_decide_eq_true_2.
  - unfold loop_cond, deref. simpl. by rewrite !bool_decide_eq_true_2.
Qed.

Lemma do_body_keep st i e :
  mCurrentLog st = Some i → mLogQueue st !! i = Some e →
  mFlushed (mFunctor e st) = false →
  do_body st = Some (after_keep i e st, loop_cond (after_keep i e st)).
Proof.
  intros Hi He Hfl. unfold do_body. rewrite Hi. simpl. rewrite He. simpl.
  rewrite Hfl. rewrite mFunctor_flushed in Hfl.
  apply orb_false_elim in Hfl as [Hf1 Hf2].
  unfold mFunctor, stream_put. by rewrite Hf2.
Qed.

(** ** What the closing path does *)

Lemma rendering_app vs ws : rendering (vs ++ ws) = rendering vs +:+ rendering ws.
Proof.
  induction vs as [|v vs IH]; [reflexivity|].
  simpl. by rewrite IH, string_app_assoc.
Qed.

Lemma rendering_snoc vs v : rendering (vs ++ [v]) = rendering vs +:+ rendered v.
Proof. rewrite rendering_app. simpl. by rewrite string_app_nil_r. Qed.

Lemma served_ge o i q : length q ≤ i → served o i q = [].
Proof. intros. unfold served. by rewrite drop_ge. Qed.

Lemma swept_ge o i q : length q ≤ i → swept o i q = q.
Proof.
  intros. unfold swept. rewrite drop_ge, take_ge by done. apply app_nil_r.
Qed.

Lemma served_hit o i q e :
  q !! i = Some e → o = Some (mThreadId e) →
  served o i q = e :: served o i (delete i q).
Proof.
  intros He Ho. unfold served.
  rewrite (drop_S _ _ _ He), filter_cons_True by done.
  f_equal. rewrite delete_take_drop, drop_app_length'; [done|].
  rewrite length_take. apply lookup_lt_Some in He. lia.
Qed.

Lemma swept_hit o i q e :
  q !! i = Some e → o = Some (mThreadId e) →
  swept o i q = swept o i (delete i q).
Proof.
  intros He Ho. unfold swept.
  assert (length (take i q) = i) as Hlen.
  { rewrite length_take. apply lookup_lt_Some in He. lia. }
  rewrite (drop_S _ _ _ He), filter_cons_False by naive_solver.
  rewrite delete_take_drop, drop_app_length' by done.
  by rewrite take_app_length' by done.
Qed.

Lemma served_miss o i q e :
  q !! i = Some e → o ≠ Some (mThreadId e) →
  served o i q = served o (S i) q.
Proof.
  intros He Ho. unfold served.
  by rewrite (drop_S _ _ _ He), filter_cons_False by done.
Qed.

Lemma swept_miss o i q e :
  q !! i = Some e → o ≠ Some (mThreadId e) →
  swept o i q = swept o (S i) q.
Proof.
  intros He Ho. unfold swept.
  rewrite (drop_S _ _ _ He), filter_cons_True by done.
  rewrite (take_S_r _ _ _ He), <- app_assoc. done.
Qed.

Lemma close_inner_spec fuel : ∀ st i,
  length (mLogQueue st) - i ≤ fuel →
  mCurrentLog st = iter_at i (mLogQueue st) →
  close_inner fuel st = after_sweep i st.
Proof.
  assert (∀ st i, length (mLogQueue st) ≤ i → mCurrentLog st = None →
                  st = after_sweep i st) as Hend.
  { intros st i Hi Hc. unfold after_sweep.
    rewrite served_ge, swept_ge by done. simpl.
    rewrite orb_false_r, string_app_nil_r, app_nil_r.
    destruct st; simpl in *; by subst. }
  induction fuel as [|fuel IH]; intros st i Hfuel Hcur.
  { simpl. apply Hend; [lia|]. rewrite Hcur. apply iter_at_ge. lia. }
  destruct (decide (i < length (mLogQueue st))) as [Hi|Hi].
  2:{ assert (mCurrentLog st = None) as Hc.
      { rewrite Hcur. apply iter_at_ge. lia. }
      simpl. rewrite Hc. apply Hend; [lia|done]. }
  rewrite iter_at_lt in Hcur by done.
  destruct (lookup_lt_is_Some_2 _ _ Hi) as [e He].
  simpl. rewrite Hcur, He.
  destruct (decide (mCurrentThreadId st = Some (mThreadId e))) as [Ho|Ho].
  - rewrite (IH _ i).
    + unfold after_sweep.
      assert (mLogQueue (mFunctor e st) = mLogQueue st) as Hq.
      { unfold mFunctor, stream_put. by destruct (flushes (mValue e)). }
      simpl. rewrite Hq.
      rewrite (served_hit _ _ _ _ He) by (unfold mFunctor, stream_put in *;
        by destruct (flushes (mValue e))).
      rewrite (swept_hit _ _ _ _ He) by (unfold mFunctor, stream_put in *;
        by destruct (flushes (mValue e))).
      unfold mFunctor, stream_put.
      destruct (flushes (mValue e)) eqn:Hfl; simpl;
        rewrite ?Hfl, ?string_app_assoc, <- ?app_assoc, ?orb_true_r; simpl;
        done.
    + simpl. assert (mLogQueue (mFunctor e st) = mLogQueue st) as ->.
      { unfold mFunctor, stream_put. by destruct (flushes (mValue e)). }
      rewrite length_delete by eauto. lia.
    + done.
  - rewrite (IH _ (S i)).
    + unfold after_sweep. simpl.
      by rewrite (served_miss _ _ _ _ He), (swept_miss _ _ _ _ He).
    + simpl. lia.
    + done.
Qed.

Lemma filter_owner_entries t q :
  filter (λ e, Some t = Some (mThreadId e)) q = entries_of t q.
Proof. apply list_filter_iff. intros e. split; congruence. Qed.

Section filter_all_or_none.
Context {A : Type} (P : A → Prop) `{!∀ x, Decision (P x)}.

Lemma filter_none (l : list A) : Forall (λ x, ¬ P x) l → filter P l = [].
Proof.
  induction 1 as [|x l Hx _ IH]; [done|]. by rewrite filter_cons_False.
Qed.

Lemma filter_all (l : list A) : Forall P l → filter P l = l.
Proof.
  induction 1 as [|x l Hx _ IH]; [done|]. by rewrite filter_cons_True, IH.
Qed.
End filter_all_or_none.

Lemma first_of_served o q i :
  first_of o q i →
  served o i q = filter (λ e, o = Some (mThreadId e)) q ∧
  swept o i q = filter (λ e, o ≠ Some (mThreadId e)) q.
Proof.
  intros (e & He & -> & Hb). unfold served, swept.
  assert (Forall (λ e', Some (mThreadId e) ≠ Some (mThreadId e')) (take i q))
    as Hpre.
  { apply Forall_forall. intros e' [j Hj]%list_elem_of_lookup Heq.
    pose proof (lookup_lt_Some _ _ _ Hj) as Hlt. rewrite length_take in Hlt.
    rewrite lookup_take_lt in Hj by lia.
    apply (Hb j e'); [lia|done|congruence]. }
  split.
  - rewrite <- (take_drop i q) at 2.
    by rewrite filter_app, (filter_none _ (take i q)).
  - rewrite <- (take_drop i q) at 3.
    by rewrite filter_app, (filter_all _ (take i q)).
Qed.

Lemma drain_order_without t ts q :
  t ∉ ts →
  drain_order ts (filter (λ e, Some t ≠ Some (mThreadId e)) q) =
  drain_order ts q.
Proof.
  intros Ht. unfold drain_order. f_equal.
  apply list_fmap_ext. intros j t' Ht'. apply list_elem_of_lookup_2 in Ht'.
  unfold entries_of. rewrite list_filter_filter. apply list_filter_iff.
  intros e. split; [by intros [? _]|]. intros <-. split; [done|].
  intros [= ->]. done.
Qed.

Lemma threads_of_nil : threads_of [] [].
Proof.
  split; [apply NoDup_nil_2|]. intros t. rewrite elem_of_nil.
  split; [done|]. by intros (e & ?%elem_of_nil & _).
Qed.

Lemma Drained_nil st : mLogQueue st = [] → mCurrentLog st = None →
  Drained [] st st.
Proof.
  intros Hq Hc. split; try done.
  - by rewrite string_app_nil_r.
  - by rewrite app_nil_r.
Qed.

(** A sweep on behalf of [t] from the first entry of [t], followed by a drain
    of what is left, is a drain that takes [t] first. *)
Lemma sweep_then_drain st i t ts st' :
  mCurrentThreadId st = Some t →
  first_of (Some t) (mLogQueue st) i →
  threads_of (mLogQueue (after_sweep i st)) ts →
  Drained (drain_order ts (mLogQueue (after_sweep i st))) (after_sweep i st) st' →
  threads_of (mLogQueue st) (t :: ts) ∧
  Drained (drain_order (t :: ts) (mLogQueue st)) st st'.
Proof.
  intros Ho Hfirst. unfold after_sweep. simpl. rewrite Ho.
  pose proof (first_of_served _ _ _ Hfirst) as [-> ->].
  rewrite filter_owner_entries.
  destruct Hfirst as (e & He%list_elem_of_lookup_2 & [= ->] & _).
  set (q := mLogQueue st).
  set (q' := filter (λ e', Some (mThreadId e) ≠ Some (mThreadId e')) q).
  intros [Hnd Hts] [D1 D2 D3 D4 D5 D6 D7 D8 D9]. simpl in *.
  assert (mThreadId e ∉ ts) as Hnotin.
  { rewrite Hts. intros (e' & [He' _]%list_elem_of_filter & Heq).
    by rewrite Heq in He'. }
  split.
  - split; [by apply NoDup_cons|].
    intros t'. rewrite elem_of_cons, Hts. split.
    + intros [->|(e' & [_ He']%list_elem_of_filter & <-)]; eauto.
    + intros (e' & He' & <-).
      destruct (decide (mThreadId e' = mThreadId e)) as [Heq|Hne];
        [by left|].
      right. exists e'. split; [|done]. apply list_elem_of_filter.
      split; [congruence|done].
  - unfold q' in D3, D4. rewrite drain_order_without in D3, D4 by done.
    change (drain_order (mThreadId e :: ts) q)
      with (entries_of (mThreadId e) q ++ drain_order ts q).
    split; try done.
    + rewrite D3. unfold values.
      by rewrite fmap_app, rendering_app, string_app_assoc.
    + by rewrite D4, app_assoc.
Qed.

(** The outer loop entered with the cursor at the end. *)
Lemma close_outer_end fuel : ∀ st,
  mCurrentLog st = None → length (mLogQueue st) ≤ fuel →
  ∃ ts, threads_of (mLogQueue st) ts ∧
        Drained (drain_order ts (mLogQueue st)) st (close_outer fuel st).
Proof.
  induction fuel as [|fuel IH]; intros st Hcur Hlen.
  { destruct (mLogQueue st) eqn:Hq; simpl in Hlen; [|lia].
    exists []. split; [apply threads_of_nil|]. by apply Drained_nil. }
  simpl. destruct (mLogQueue st) as [|h q] eqn:Hq.
  { exists []. split; [apply threads_of_nil|]. by apply Drained_nil. }
  rewrite Hcur, begin_cons.
  set (st1 := set_owner _ _).
  assert (mLogQueue st1 = h :: q) as Hq1 by done.
  assert (first_of (Some (mThreadId h)) (mLogQueue st1) 0) as Hfirst.
  { rewrite Hq1. exists h. split; [done|]. split; [done|]. intros; lia. }
  assert (mCurrentThreadId st1 = Some (mThreadId h)) as Ho1.
  { unfold st1, deref. simpl. by rewrite Hq. }
  assert (mStream st1 = mStream st ∧ invoked st1 = invoked st ∧
          cout st1 = cout st ∧ notified st1 = notified st ∧
          mClosing st1 = mClosing st ∧ mThread st1 = mThread st ∧
          mLogMutex st1 = mLogMutex st ∧ mCurrentLog st1 = Some 0)
    as (E1 & E2 & E3 & E4 & E5 & E6 & E7 & E8) by done.
  clearbody st1.
  rewrite (close_inner_spec _ _ 0) by (rewrite ?Hq1, ?E8; simpl; done || lia).
  destruct (IH (after_sweep 0 st1)) as (ts & Hts & Hdr); [done|..].
  { unfold after_sweep. simpl. rewrite Ho1.
    destruct (first_of_served _ _ _ Hfirst) as [_ ->]. rewrite Hq1.
    assert (length (filter (λ e, Some (mThreadId h) ≠ Some (mThreadId e))
                      (h :: q)) < length (h :: q)) as Hlt.
    { apply (length_filter_lt _ _ h); [by left|naive_solver]. }
    simpl in *. lia. }
  destruct (sweep_then_drain st1 0 (mThreadId h) ts _ Ho1 Hfirst Hts Hdr)
    as [Hts' Hdr'].
  exists (mThreadId h :: ts). rewrite Hq1 in Hts', Hdr'. split; [done|].
  destruct Hdr' as [D1 D2 D3 D4 D5 D6 D7 D8 D9]. split; congruence.
Qed.

(** The closing path from a state that satisfies the invariant: every queued
    entry is invoked, thread by thread. *)
Lemma close_outer_spec st :
  Sched (mLogQueue st) (mCurrentLog st) (mCurrentThreadId st) →
  ∃ ts, threads_of (mLogQueue st) ts ∧
        Drained (drain_order ts (mLogQueue st)) st
          (close_outer (S (length (mLogQueue st))) st).
Proof.
  intros [Hn Hc Hd]. destruct (mCurrentLog st) as [i|] eqn:Hcur.
  2:{ apply close_outer_end; [done|lia]. }
  pose proof (Hc i eq_refl) as Hfirst.
  destruct Hfirst as (e & He & Ho & Hb).
  assert (first_of (Some (mThreadId e)) (mLogQueue st) i) as Hfirst.
  { exists e. by rewrite <- Ho. }
  pose proof (lookup_lt_Some _ _ _ He) as Hi.
  simpl. destruct (mLogQueue st) as [|h q] eqn:Hq; [simpl in Hi; lia|].
  rewrite Hcur, <- Hq.
  rewrite <- Hq in Hfirst, Hi.
  rewrite (close_inner_spec _ _ i) by (rewrite ?Hcur, ?iter_at_lt; done || lia).
  destruct (close_outer_end (length (mLogQueue st)) (after_sweep i st))
    as (ts & Hts & Hdr); [done|..].
  { unfold after_sweep. simpl. rewrite Ho.
    destruct (first_of_served _ _ _ Hfirst) as [_ ->]. apply length_filter. }
  destruct (sweep_then_drain st i (mThreadId e) ts _ Ho Hfirst Hts Hdr)
    as [Hts' Hdr'].
  by exists (mThreadId e :: ts).
Qed.

(** ** The invariant is preserved by every step *)

Lemma iteration_Inv st st' :
  Inv st → holds_mutex (mThread st) = true → mClosing st = false →
  iteration st = Some st' → Inv st'.
Proof.
  intros [Hs Hf Hm Hw Hdr Ht] Hheld Hcl Hit. unfold iteration in Hit.
  destruct (mCurrentLog st) as [i|] eqn:Hcur;
    [|unfold do_body in Hit; by rewrite Hcur in Hit].
  destruct (mLogQueue st !! i) as [e|] eqn:He;
    [|unfold do_body in Hit; rewrite Hcur in Hit; simpl in Hit;
      by rewrite He in Hit].
  destruct (mFlushed (mFunctor e st)) eqn:Hfl.
  - rewrite (do_body_flush st i e) in Hit by done. simpl in Hit.
    injection Hit as <-. unfold after_flush.
    pose proof (Sched_head (delete i (mLogQueue st))) as Hhead.
    case_bool_decide as Hne; split; simpl; try done.
    + by rewrite Hm.
    + intros _. split; [done|].
      destruct (delete i (mLogQueue st)); [done|]. by rewrite begin_cons.
  - rewrite (do_body_keep st i e) in Hit by done. simpl in Hit.
    injection Hit as <-.
    pose proof (Sched_erase_find _ _ _ Hs) as Hkeep.
    destruct (loop_cond (after_keep i e st)) eqn:Hloop;
      split; simpl; try done.
    + by rewrite Hm.
    + intros _. split; [done|].
      unfold loop_cond, deref in Hloop. simpl in Hloop.
      intros Hnone. by rewrite Hnone in Hloop.
Qed.

Lemma serialize_Inv st st' : Inv st → serialize st = Some st' → Inv st'.
Proof.
  intros HI. pose proof HI as [Hs Hf Hm Hw Hdr Ht]. unfold serialize.
  destruct (mThread st) eqn:Hpc.
  - destruct (mLogMutex st); [done|].
    destruct (wake_pred st) eqn:Hwp; [|done]. intros [= <-].
    split; simpl; done.
  - destruct (mClosing st) eqn:Hcl.
    + intros [= <-]. destruct (close_outer_spec st Hs) as (ts & _ & D).
      unfold closing_path, flush.
      set (st2 := close_outer _ st) in *. clearbody st2.
      destruct D as [D1 D2 D3 D4 D5 D6 D7 D8 D9].
      split; simpl; try done.
      * rewrite D1, D2. split; try done. intros _ e He.
        by apply elem_of_nil in He.
      * intros _. by rewrite D7.
    + apply iteration_Inv; [done|by rewrite Hpc|done].
  - apply iteration_Inv; [done|by rewrite Hpc|]. by destruct (Hdr eq_refl).
  - done.
Qed.

Lemma close_Inv st : Inv st → mLogMutex st = false → Inv (close st).
Proof.
  intros [Hs Hf Hm Hw Hdr Ht] Hfree. unfold close.
  split; simpl; try done.
  intros Hpc. rewrite Hm, Hpc in Hfree. done.
Qed.

Lemma step_Inv l st st' : Inv st → step l st = Some st' → Inv st'.
Proof.
  intros HI. destruct l as [id value| |]; simpl.
  - destruct (mLogMutex st); [done|]. intros [= <-]. by apply write_Inv.
  - destruct (mLogMutex st) eqn:Hfree; [done|]. intros [= <-].
    by apply close_Inv.
  - by apply serialize_Inv.
Qed.

Lemma run_Inv ls : ∀ st st', Inv st → run ls st = Some st' → Inv st'.
Proof.
  induction ls as [|l ls IH]; intros st st' HI; simpl.
  - by intros [= <-].
  - destruct (step l st) as [st1|] eqn:Hstep; [|done]. simpl.
    apply IH. by eapply step_Inv.
Qed.

(** In a state the program reaches, a serialize thread that holds the mutex
    can always move: the iterator it dereferences designates a node. *)
Lemma serialize_progress st :
  Inv st → holds_mutex (mThread st) = true → is_Some (serialize st).
Proof.
  intros [Hs Hf Hm Hw Hdr Ht] Hheld. unfold serialize.
  assert (mClosing st = false → mCurrentLog st ≠ None → is_Some (iteration st))
    as Hit.
  { intros Hcl Hcur. destruct (mCurrentLog st) as [i|] eqn:Hi; [|done].
    destruct (sched_cursor _ _ _ Hs i eq_refl) as (e & He & _).
    unfold iteration.
    destruct (mFlushed (mFunctor e st)) eqn:Hfl.
    - by rewrite (do_body_flush st i e).
    - by rewrite (do_body_keep st i e). }
  destruct (mThread st) eqn:Hpc; try done.
  - destruct (mClosing st) eqn:Hcl; [done|]. apply Hit; [done|].
    specialize (Hw eq_refl). unfold wake_pred in Hw. rewrite Hcl in Hw.
    simpl in Hw. by apply bool_decide_eq_true_1 in Hw.
  - destruct (Hdr eq_refl). by apply Hit.
Qed.

Lemma run_step l st st1 ls :
  step l st = Some st1 → run (l :: ls) st = run ls st1.
Proof. intros Hstep. simpl. by rewrite Hstep. Qed.

Lemma reachable_Inv st : reachable st → Inv st.
Proof. intros [ls Hrun]. eapply run_Inv; [apply init_Inv|done]. Qed.

(** ** The drain loop, one entry at a time *)

Lemma in_loop_serialize st : in_loop st → serialize st = iteration st.
Proof.
  intros [[Hpc|Hpc] Hcl]; unfold serialize; rewrite Hpc; [|done].
  by rewrite Hcl.
Qed.

(** C3: in the drain loop of lines 162-186, when the closure just executed
    has set [mFlushed], the loop writes the buffered text to [std::cout] and
    empties the buffer, erases the entry and puts the cursor on the new head
    of the queue; with the queue then empty nobody owns the floor and the
    thread goes back to [wait], where it blocks; otherwise the floor goes to
    the thread of the new head and the loop goes on. *)
Theorem flushed_entry_emits_and_rotates st i e :
  in_loop st →
  mCurrentLog st = Some i → mLogQueue st !! i = Some e →
  mFlushed st = false → flushes (mValue e) = true →
  ∃ st', step Serialize st = Some st' ∧
    cout st' = cout st ++ [mStream st +:+ rendered (mValue e)] ∧
    mStream st' = "" ∧ mFlushed st' = false ∧
    invoked st' = invoked st ++ [e] ∧
    mLogQueue st' = delete i (mLogQueue st) ∧
    match mLogQueue st' with
    | [] =>
        mCurrentLog st' = None ∧ mCurrentThreadId st' = None ∧
        mThread st' = Waiting ∧ mLogMutex st' = false ∧
        step Serialize st' = None
    | h :: _ =>
        mCurrentLog st' = Some 0 ∧
        mCurrentThreadId st' = Some (mThreadId h) ∧
        mThread st' = Draining ∧ mLogMutex st' = mLogMutex st
    end.
Proof.
  intros Hloop Hcur He Hclear Hfl. simpl.
  rewrite (in_loop_serialize _ Hloop). unfold iteration.
  rewrite (do_body_flush st i e Hcur He)
    by (by rewrite mFunctor_flushed, Hfl, orb_true_r).
  simpl. destruct Hloop as [_ Hcl].
  destruct (delete i (mLogQueue st)) as [|h q'] eqn:Hq.
  - rewrite bool_decide_eq_false_2 by naive_solver.
    eexists. split; [done|]. unfold after_flush. rewrite Hq. simpl.
    repeat split. unfold serialize, wake_pred. simpl. by rewrite Hcl.
  - rewrite bool_decide_eq_true_2 by done.
    eexists. split; [done|]. unfold after_flush. rewrite Hq. simpl.
    by rewrite begin_cons.
Qed.

Lemma flushed_entry_emits_and_rotates_witness :
  run rotation_run init = Some before_rotation ∧
  in_loop before_rotation ∧ mCurrentLog before_rotation = Some 1 ∧
  mLogQueue before_rotation !! 1 = Some (mkEntry 1 Endl) ∧
  mFlushed before_rotation = false ∧
  flushes (mValue (mkEntry 1 Endl)) = true ∧
  ∃ st', step Serialize before_rotation = Some st' ∧
    cout st' =
      cout before_rotation ++
      [mStream before_rotation +:+ rendered (mValue (mkEntry 1 Endl))] ∧
    mStream st' = "" ∧ mFlushed st' = false ∧
    invoked st' = invoked before_rotation ++ [mkEntry 1 Endl] ∧
    mLogQueue st' = delete 1 (mLogQueue before_rotation) ∧
    match mLogQueue st' with
    | [] =>
        mCurrentLog st' = None ∧ mCurrentThreadId st' = None ∧
        mThread st' = Waiting ∧ mLogMutex st' = false ∧
        step Serialize st' = None
    | h :: _ =>
        mCurrentLog st' = Some 0 ∧
        mCurrentThreadId st' = Some (mThreadId h) ∧
        mThread st' = Draining ∧ mLogMutex st' = mLogMutex before_rotation
    end.
Proof.
  assert (in_loop before_rotation) as Hloop
    by (split; [by right|reflexivity]).
  split; [reflexivity|].
  split; [exact Hloop|]. split; [reflexivity|]. split; [reflexivity|].
  split; [reflexivity|]. split; [reflexivity|].
  apply (flushed_entry_emits_and_rotates before_rotation 1 (mkEntry 1 Endl)
           Hloop); reflexivity.
Defined.

(** C4: in the drain loop of lines 162-186, when the closure just executed
    has left [mFlushed] clear, the loop erases the entry, leaves the rest of
    the queue as it is, and moves the cursor forward to the next entry of the
    owner; with no such entry the cursor is at the end and the thread goes
    back to [wait], where it blocks, the owner keeping the floor. *)
Theorem unflushed_entry_advances_cursor st i e :
  in_loop st →
  mCurrentLog st = Some i → mLogQueue st !! i = Some e →
  mFlushed st = false → flushes (mValue e) = false →
  ∃ st', step Serialize st = Some st' ∧
    mLogQueue st' = delete i (mLogQueue st) ∧
    mCurrentThreadId st' = mCurrentThreadId st ∧
    cout st' = cout st ∧
    mStream st' = mStream st +:+ rendered (mValue e) ∧
    invoked st' = invoked st ++ [e] ∧
    match mCurrentLog st' with
    | Some j =>
        i ≤ j ∧
        (∃ e', mLogQueue st' !! j = Some e' ∧
               mCurrentThreadId st = Some (mThreadId e')) ∧
        (∀ k e', i ≤ k → k < j → mLogQueue st' !! k = Some e' →
                 mCurrentThreadId st ≠ Some (mThreadId e')) ∧
        mThread st' = Draining ∧ mLogMutex st' = mLogMutex st
    | None =>
        (∀ k e', i ≤ k → mLogQueue st' !! k = Some e' →
                 mCurrentThreadId st ≠ Some (mThreadId e')) ∧
        mThread st' = Waiting ∧ mLogMutex st' = false ∧
        step Serialize st' = None
    end.
Proof.
  intros Hloop Hcur He Hclear Hfl. simpl.
  rewrite (in_loop_serialize _ Hloop). unfold iteration.
  rewrite (do_body_keep st i e Hcur He)
    by (by rewrite mFunctor_flushed, Hfl, Hclear).
  simpl. destruct Hloop as [_ Hcl].
  set (q' := delete i (mLogQueue st)).
  destruct (find_if (iter_at i q')
              (λ entry, mCurrentThreadId st = Some (mThreadId entry)) q')
    as [j|] eqn:Hfind.
  - pose proof (find_if_Some _ _ _ _ Hfind) as (Hij & (e' & He' & Ho) & Hmid).
    assert (loop_cond (after_keep i e st) = true) as ->.
    { unfold loop_cond, deref, after_keep. simpl. fold q'. rewrite Hfind.
      simpl. rewrite He'. by apply bool_decide_eq_true_2. }
    eexists. split; [done|]. unfold after_keep. simpl. fold q'.
    rewrite Hfind. repeat split; eauto.
  - pose proof (find_if_None _ _ _ Hfind) as Hnone.
    assert (loop_cond (after_keep i e st) = false) as ->.
    { unfold loop_cond, deref, after_keep. simpl. fold q'.
      by rewrite Hfind. }
    eexists. split; [done|]. unfold after_keep. simpl. fold q'.
    rewrite Hfind. repeat split; eauto.
    unfold serialize, wake_pred. simpl. by rewrite Hcl.
Qed.

Lemma unflushed_entry_advances_cursor_witness :
  run skip_run init = Some before_skip ∧
  in_loop before_skip ∧ mCurrentLog before_skip = Some 0 ∧
  mLogQueue before_skip !! 0 = Some (mkEntry 1 (Text "a")) ∧
  mFlushed before_skip = false ∧
  flushes (mValue (mkEntry 1 (Text "a"))) = false ∧
  ∃ st', step Serialize before_skip = Some st' ∧
    mLogQueue st' = delete 0 (mLogQueue before_skip) ∧
    mCurrentThreadId st' = mCurrentThreadId before_skip ∧
    cout st' = cout before_skip ∧
    mStream st' =
      mStream before_skip +:+ rendered (mValue (mkEntry 1 (Text "a"))) ∧
    invoked st' = invoked before_skip ++ [mkEntry 1 (Text "a")] ∧
    match mCurrentLog st' with
    | Some j =>
        0 ≤ j ∧
        (∃ e', mLogQueue st' !! j = Some e' ∧
               mCurrentThreadId before_skip = Some (mThreadId e')) ∧
        (∀ k e', 0 ≤ k → k < j → mLogQueue st' !! k = Some e' →
                 mCurrentThreadId before_skip ≠ Some (mThreadId e')) ∧
        mThread st' = Draining ∧ mLogMutex st' = mLogMutex before_skip
    | None =>
        (∀ k e', 0 ≤ k → mLogQueue st' !! k = Some e' →
                 mCurrentThreadId before_skip ≠ Some (mThreadId e')) ∧
        mThread st' = Waiting ∧ mLogMutex st' = false ∧
        step Serialize st' = None
    end.
Proof.
  assert (in_loop before_skip) as Hloop by (split; [by left|reflexivity]).
  split; [reflexivity|].
  split; [exact Hloop|]. split; [reflexivity|]. split; [reflexivity|].
  split; [reflexivity|]. split; [reflexivity|].
  apply (unflushed_entry_advances_cursor before_skip 0 (mkEntry 1 (Text "a"))
           Hloop); reflexivity.
Defined.

(** ** Appending *)

Lemma write_queue id value st :
  mLogQueue (write id value st) = mLogQueue st ++ [mkEntry id value].
Proof.
  unfold write. simpl. destruct (mCurrentThreadId st) as [o|]; [|done].
  destruct (decide (o = id)); [|done]. by destruct (mCurrentLog st).
Qed.

Lemma write_notified id value st :
  notified (write id value st) =
    if decide (mCurrentThreadId st = None ∨ mCurrentThreadId st = Some id)
    then S (notified st) else notified st.
Proof.
  unfold write. simpl. destruct (mCurrentThreadId st) as [o|].
  - destruct (decide (o = id)) as [->|Hne].
    + rewrite decide_True by by right. by destruct (mCurrentLog st).
    + rewrite decide_False; [done|]. intros [?|[= ?]]; done.
  - by rewrite decide_True by by left.
Qed.

(** C5, refuted as stated: thread 1 owns the floor, the cursor already
    designates pending work, and its next append calls [notify_one] all the
    same. *)
Lemma owner_append_signals_with_work_pending :
  run [Append 1 (Text "a")] init = Some one_pending ∧
  mCurrentThreadId one_pending = Some 1 ∧
  mCurrentLog one_pending = Some 0 ∧
  mLogMutex one_pending = false ∧
  step (Append 1 (Text "b")) one_pending
    = Some (write 1 (Text "b") one_pending) ∧
  notified (write 1 (Text "b") one_pending) = S (notified one_pending).
Proof. repeat split. Qed.

(** C5, as the code has it: [write] always enqueues exactly one entry, and it
    calls [notify_one] exactly when nobody owns the floor or the caller owns
    it, wherever the cursor stands; when another thread owns the floor it
    enqueues without signalling. *)
Theorem write_signals_iff_unowned_or_owner id value st :
  mLogQueue (write id value st) = mLogQueue st ++ [mkEntry id value] ∧
  notified (write id value st) =
    if decide (mCurrentThreadId st = None ∨ mCurrentThreadId st = Some id)
    then S (notified st) else notified st.
Proof. split; [apply write_queue|apply write_notified]. Qed.

(** C8: an append that finds nobody owning the floor gives the floor to the
    caller, puts the cursor on the entry it has just appended, and calls
    [notify_one]. *)
Theorem unowned_append_claims_floor ls st id value :
  run ls init = Some st →
  mCurrentThreadId st = None →
  mLogQueue (write id value st) = mLogQueue st ++ [mkEntry id value] ∧
  mCurrentThreadId (write id value st) = Some id ∧
  mCurrentLog (write id value st) = Some (length (mLogQueue st)) ∧
  mLogQueue (write id value st) !! length (mLogQueue st)
    = Some (mkEntry id value) ∧
  notified (write id value st) = S (notified st).
Proof.
  intros Hrun Ho.
  assert (Inv st) as [Hs _ _ _ _ _] by (apply reachable_Inv; by exists ls).
  destruct (sched_unowned _ _ _ Hs Ho) as [Hq Hcur].
  unfold write. simpl. rewrite Ho, Hq. done.
Qed.

Lemma unowned_append_claims_floor_witness :
  run line_flushed init = Some after_line_flushed ∧
  mCurrentThreadId after_line_flushed = None ∧
  mLogQueue (write 2 (Text "x") after_line_flushed)
    = mLogQueue after_line_flushed ++ [mkEntry 2 (Text "x")] ∧
  mCurrentThreadId (write 2 (Text "x") after_line_flushed) = Some 2 ∧
  mCurrentLog (write 2 (Text "x") after_line_flushed)
    = Some (length (mLogQueue after_line_flushed)) ∧
  mLogQueue (write 2 (Text "x") after_line_flushed)
      !! length (mLogQueue after_line_flushed)
    = Some (mkEntry 2 (Text "x")) ∧
  notified (write 2 (Text "x") after_line_flushed)
    = S (notified after_line_flushed).
Proof.
  split; [reflexivity|]. split; [reflexivity|].
  apply (unowned_append_claims_floor line_flushed after_line_flushed
           2 (Text "x")); reflexivity.
Defined.

(** C7: in every state the program reaches, so in particular whenever the
    mutex is free, the cursor is at the end or designates a node of the queue
    whose entry belongs to the current owner. *)
Theorem cursor_at_end_or_on_owner ls st :
  run ls init = Some st →
  match mCurrentLog st with
  | None => True
  | Some i =>
      ∃ e, mLogQueue st !! i = Some e ∧
           mCurrentThreadId st = Some (mThreadId e)
  end.
Proof.
  intros Hrun.
  assert (Inv st) as [Hs _ _ _ _ _] by (apply reachable_Inv; by exists ls).
  destruct (mCurrentLog st) as [i|] eqn:Hcur; [|done].
  destruct (sched_cursor _ _ _ Hs i eq_refl) as (e & He & Ho & _). eauto.
Qed.

Lemma cursor_at_end_or_on_owner_witness :
  run two_threads init = Some after_two_threads ∧
  match mCurrentLog after_two_threads with
  | None => True
  | Some i =>
      ∃ e, mLogQueue after_two_threads !! i = Some e ∧
           mCurrentThreadId after_two_threads = Some (mThreadId e)
  end.
Proof.
  split; [reflexivity|].
  apply (cursor_at_end_or_on_owner two_threads after_two_threads).
  reflexivity.
Defined.

(** ** A floor that is held but idle *)

Lemma write_other id value st a :
  mCurrentThreadId st = Some a → id ≠ a →
  write id value st = set_queue (mLogQueue st ++ [mkEntry id value]) st.
Proof.
  intros Ho Hne. unfold write. simpl. rewrite Ho.
  by rewrite decide_False by done.
Qed.

(** C9: while thread [a] holds the floor with the cursor at the end, the
    appends of any other threads neither call [notify_one] nor touch the
    owner or the cursor; their entries stay queued, none is invoked, and the
    serialize thread stays blocked in [wait].  An append by [a], or the
    destructor, makes the predicate of [wait] true again. *)
Theorem idle_owner_blocks_other_threads st a ws :
  mThread st = Waiting → mLogMutex st = false → mClosing st = false →
  mCurrentThreadId st = Some a → mCurrentLog st = None →
  Forall (λ w, w.1 ≠ a) ws →
  ∃ st', run (appends ws) st = Some st' ∧
    mCurrentThreadId st' = Some a ∧ mCurrentLog st' = None ∧
    notified st' = notified st ∧
    mLogQueue st' = mLogQueue st ++ entries ws ∧
    invoked st' = invoked st ∧ cout st' = cout st ∧
    wake_pred st' = false ∧ step Serialize st' = None ∧
    (∀ value, wake_pred (write a value st') = true) ∧
    wake_pred (close st') = true.
Proof.
  intros Hpc Hfree Hcl Ho Hcur Hws. revert st Hpc Hfree Hcl Ho Hcur.
  induction Hws as [|[id value] ws Hne _ IH]; intros st Hpc Hfree Hcl Ho Hcur.
  - exists st. simpl. rewrite app_nil_r. repeat split; try done.
    + unfold wake_pred. by rewrite Hcl, Hcur.
    + unfold serialize, wake_pred. by rewrite Hpc, Hfree, Hcl, Hcur.
    + intros value. unfold write, wake_pred. simpl. rewrite Ho.
      rewrite decide_True by done. rewrite Hcur. simpl.
      rewrite prev_end_snoc. by rewrite orb_true_r.
  - simpl in Hne. simpl. rewrite Hfree. simpl.
    rewrite (write_other _ _ _ a) by done.
    destruct (IH (set_queue (mLogQueue st ++ [mkEntry id value]) st))
      as (st' & Hrun & H1 & H2 & H3 & H4 & H5 & H6 & H7 & H8 & H9 & H10);
      try done.
    exists st'. split; [done|]. simpl in *. rewrite <- app_assoc in H4.
    repeat split; done.
Qed.

Lemma idle_owner_blocks_other_threads_witness :
  run idle_run init = Some idle_owner ∧
  mThread idle_owner = Waiting ∧ mLogMutex idle_owner = false ∧
  mClosing idle_owner = false ∧
  mCurrentThreadId idle_owner = Some 1 ∧ mCurrentLog idle_owner = None ∧
  Forall (λ w, w.1 ≠ 1) other_appends ∧
  ∃ st', run (appends other_appends) idle_owner = Some st' ∧
    mCurrentThreadId st' = Some 1 ∧ mCurrentLog st' = None ∧
    notified st' = notified idle_owner ∧
    mLogQueue st' = mLogQueue idle_owner ++ entries other_appends ∧
    invoked st' = invoked idle_owner ∧ cout st' = cout idle_owner ∧
    wake_pred st' = false ∧ step Serialize st' = None ∧
    (∀ value, wake_pred (write 1 value st') = true) ∧
    wake_pred (close st') = true.
Proof.
  assert (Forall (λ w : ThreadId * Value, w.1 ≠ 1) other_appends) as Hws.
  { repeat constructor; simpl; lia. }
  split; [reflexivity|].
  repeat (split; [first [reflexivity | exact Hws]|]).
  apply (idle_owner_blocks_other_threads idle_owner 1 other_appends);
    first [reflexivity | exact Hws].
Defined.

(** ** The mutex and the sink *)

Lemma write_cout id value st : cout (write id value st) = cout st.
Proof.
  unfold write. simpl. destruct (mCurrentThreadId st) as [o|]; [|done].
  destruct (decide (o = id)); [|done]. by destruct (mCurrentLog st).
Qed.

(** C10, refuted as stated: the step that writes the segment to [std::cout]
    is taken with the mutex held, and a producer cannot append at that
    point. *)
Lemma sink_write_holds_mutex :
  run [Append 1 Endl; Serialize] init = Some about_to_flush ∧
  mLogMutex about_to_flush = true ∧
  (cout <$> step Serialize about_to_flush) = Some [newline] ∧
  step (Append 2 (Text "x")) about_to_flush = None.
Proof. repeat split. Qed.

(** C10, as the code has it: the [unique_lock] of line 129 is held from the
    return of [wait] to the end of the pass.  In every state the program
    reaches the mutex is held exactly while the serialize thread is between
    the two; while it is held neither a producer nor the destructor can
    move; a step of the pass either stays in the loop, the mutex still held,
    or ends the pass and releases it; and every write to [std::cout] happens
    in a step that the serialize thread takes while it holds the mutex, at a
    point where no producer can append. *)
Theorem sink_written_only_under_mutex ls st :
  run ls init = Some st →
  (mThread st = Woken ∨ mThread st = Draining ↔ mLogMutex st = true) ∧
  (mLogMutex st = true →
     (∀ id value, step (Append id value) st = None) ∧ step Close st = None) ∧
  (mThread st = Woken ∨ mThread st = Draining →
     ∃ st', step Serialize st = Some st' ∧
       ((mThread st' = Draining ∧ mLogMutex st' = true) ∨
        ((mThread st' = Waiting ∨ mThread st' = Terminated) ∧
         mLogMutex st' = false))) ∧
  (∀ l st', step l st = Some st' → cout st' ≠ cout st →
     l = Serialize ∧ mLogMutex st = true ∧
     ∀ id value, step (Append id value) st = None).
Proof.
  intros Hrun.
  assert (Inv st) as HI by (apply reachable_Inv; by exists ls).
  pose proof (inv_mutex _ HI) as Hm.
  assert (mLogMutex st = true →
          (∀ id value, step (Append id value) st = None) ∧
          step Close st = None) as Hshut.
  { intros Hheld. simpl. by rewrite Hheld. }
  split; [|split; [exact Hshut|split]].
  - rewrite Hm. destruct (mThread st); simpl; split; try done.
    + by intros [?|?].
    + by left.
    + by right.
    + by intros [?|?].
  - intros Hpc.
    destruct (serialize_progress st HI) as [st' Hstep];
      [by destruct Hpc as [-> | ->]|].
    exists st'. split; [done|].
    pose proof (inv_mutex _ (serialize_Inv _ _ HI Hstep)) as Hm'.
    assert (mThread st' ≠ Woken) as Hnw.
    { assert (∀ st1, iteration st = Some st1 → mThread st1 ≠ Woken) as Hit.
      { intros st1 Hit. unfold iteration in Hit.
        destruct (do_body st) as [[st0 again]|]; [|done]. simpl in Hit.
        by destruct again; injection Hit as <-. }
      unfold serialize in Hstep.
      destruct Hpc as [Hpc|Hpc]; rewrite Hpc in Hstep.
      - destruct (mClosing st); [by injection Hstep as <-|by apply Hit].
      - by apply Hit. }
    rewrite Hm'. destruct (mThread st'); simpl; try done.
    + right. split; [by left|done].
    + by left.
    + right. split; [by right|done].
  - intros l st' Hstep Hcout.
    assert (l = Serialize ∧ mLogMutex st = true) as [-> Hheld].
    { destruct l as [id value| |]; simpl in Hstep.
      - destruct (mLogMutex st); [done|]. injection Hstep as <-.
        by rewrite write_cout in Hcout.
      - destruct (mLogMutex st); [done|]. by injection Hstep as <-.
      - split; [done|]. rewrite Hm. unfold serialize in Hstep.
        destruct (mThread st); try done.
        destruct (mLogMutex st); [done|].
        destruct (wake_pred st); [|done]. by injection Hstep as <-. }
    split; [done|]. split; [done|]. by apply Hshut.
Qed.

Lemma sink_written_only_under_mutex_witness :
  run [Append 1 Endl; Serialize] init = Some about_to_flush ∧
  (mThread about_to_flush = Woken ∨ mThread about_to_flush = Draining
   ↔ mLogMutex about_to_flush = true) ∧
  (mLogMutex about_to_flush = true →
     (∀ id value, step (Append id value) about_to_flush = None) ∧
     step Close about_to_flush = None) ∧
  (mThread about_to_flush = Woken ∨ mThread about_to_flush = Draining →
     ∃ st', step Serialize about_to_flush = Some st' ∧
       ((mThread st' = Draining ∧ mLogMutex st' = true) ∨
        ((mThread st' = Waiting ∨ mThread st' = Terminated) ∧
         mLogMutex st' = false))) ∧
  (∀ l st',
     step l about_to_flush = Some st' → cout st' ≠ cout about_to_flush →
     l = Serialize ∧ mLogMutex about_to_flush = true ∧
     ∀ id value, step (Append id value) about_to_flush = None).
Proof.
  split; [reflexivity|].
  apply (sink_written_only_under_mutex [Append 1 Endl; Serialize]
           about_to_flush).
  reflexivity.
Defined.

(** ** Shutdown *)

Lemma drain_order_perm ts : ∀ q, threads_of q ts → drain_order ts q ≡ₚ q.
Proof.
  induction ts as [|t ts IH]; intros q [Hnd Hts].
  - destruct q as [|e q]; [done|].
    assert (mThreadId e ∈ @nil ThreadId) as Hbad.
    { apply Hts. exists e. split; [by left|done]. }
    by apply elem_of_nil in Hbad.
  - apply NoDup_cons in Hnd as [Hnotin Hnd].
    set (q' := filter (λ e, ¬ mThreadId e = t) q).
    assert (threads_of q' ts) as Hts'.
    { split; [done|]. intros t'. split.
      - intros Hin. destruct (proj1 (Hts t')) as (e & He & <-); [by right|].
        exists e. split; [|done]. apply list_elem_of_filter. split; [|done].
        intros Heq. by rewrite Heq in Hin.
      - intros (e & [Hne He]%list_elem_of_filter & <-).
        assert (mThreadId e ∈ t :: ts) as Hin by (apply Hts; eauto).
        by apply elem_of_cons in Hin as [?|?]. }
    change (drain_order (t :: ts) q) with (entries_of t q ++ drain_order ts q).
    assert (drain_order ts q = drain_order ts q') as ->.
    { unfold drain_order. f_equal. apply list_fmap_ext. intros j t' Ht'.
      apply list_elem_of_lookup_2 in Ht'. unfold entries_of, q'.
      rewrite list_filter_filter. apply list_filter_iff.
      intros e. split; [|by intros [? _]]. intros <-. split; [done|].
      by intros <-. }
    rewrite (IH q' Hts'). apply filter_app_complement.
Qed.

(** C2: when the destructor runs while entries are still queued, the
    serialize thread wakes up, invokes every queued closure and erases its
    entry, thread by thread and for each thread in arrival order, writes the
    buffered text to [std::cout] once, and terminates, which is what [join]
    waits for.  No entry is left out: the closures invoked are a permutation
    of the queue. *)
Theorem shutdown_drains_every_entry ls st :
  run ls init = Some st →
  mLogMutex st = false → mClosing st = false →
  ∃ st' ts,
    run [Close; Serialize; Serialize] st = Some st' ∧
    mThread st' = Terminated ∧ mLogQueue st' = [] ∧
    threads_of (mLogQueue st) ts ∧
    drain_order ts (mLogQueue st) ≡ₚ mLogQueue st ∧
    invoked st' = invoked st ++ drain_order ts (mLogQueue st) ∧
    cout st' =
      cout st ++
      [mStream st +:+ rendering (values (drain_order ts (mLogQueue st)))].
Proof.
  intros Hrun Hfree Hcl.
  assert (Inv st) as [Hs Hf Hm Hw Hdr Ht]
    by (apply reachable_Inv; by exists ls).
  assert (mThread st = Waiting) as Hpc.
  { destruct (mThread st) eqn:Hpc; simpl in Hm; try congruence.
    rewrite Ht in Hcl; done. }
  set (st1 := set_thread Woken (set_mutex true (close st))).
  assert (run [Close; Serialize; Serialize] st
          = Some (set_thread Terminated
                    (set_mutex false (closing_path st1)))) as ->.
  { rewrite (run_step Close st (close st)) by (simpl; by rewrite Hfree).
    rewrite (run_step Serialize (close st) st1)
      by (unfold step, serialize; simpl; by rewrite Hpc, Hfree).
    by rewrite (run_step Serialize st1
                  (set_thread Terminated (set_mutex false (closing_path st1)))). }
  destruct (close_outer_spec st1 Hs) as (ts & Hts & D).
  exists (set_thread Terminated (set_mutex false (closing_path st1))), ts.
  unfold closing_path, flush.
  change (mLogQueue st1) with (mLogQueue st) in *.
  set (st2 := close_outer _ st1) in *. clearbody st2.
  destruct D as [D1 D2 D3 D4 D5 D6 D7 D8 D9]. simpl.
  split; [done|]. split; [done|]. split; [done|]. split; [done|].
  split; [by apply drain_order_perm|]. split; [done|]. by rewrite D5, D3.
Qed.

Lemma shutdown_drains_every_entry_witness :
  run interleaved init = Some after_interleaved ∧
  mLogMutex after_interleaved = false ∧ mClosing after_interleaved = false ∧
  ∃ st' ts,
    run [Close; Serialize; Serialize] after_interleaved = Some st' ∧
    mThread st' = Terminated ∧ mLogQueue st' = [] ∧
    threads_of (mLogQueue after_interleaved) ts ∧
    drain_order ts (mLogQueue after_interleaved)
      ≡ₚ mLogQueue after_interleaved ∧
    invoked st' =
      invoked after_interleaved ++
      drain_order ts (mLogQueue after_interleaved) ∧
    cout st' =
      cout after_interleaved ++
      [mStream after_interleaved +:+
       rendering (values (drain_order ts (mLogQueue after_interleaved)))].
Proof.
  split; [reflexivity|]. split; [reflexivity|]. split; [reflexivity|].
  apply (shutdown_drains_every_entry interleaved after_interleaved);
    reflexivity.
Defined.

(** ** What reaches the sink *)

Lemma appended_snoc t ls l :
  appended t (ls ++ [l]) = appended t ls ++ appended t [l].
Proof. unfold appended. by rewrite omap_app. Qed.

Lemma entries_of_app t q1 q2 :
  entries_of t (q1 ++ q2) = entries_of t q1 ++ entries_of t q2.
Proof. apply filter_app. Qed.

Lemma entries_of_erase t q i e :
  q !! i = Some e →
  (∀ j e', j < i → q !! j = Some e' → mThreadId e' ≠ mThreadId e) →
  entries_of t [e] ++ entries_of t (delete i q) = entries_of t q.
Proof.
  intros He Hb. rewrite delete_take_drop.
  rewrite <- (take_drop_middle q i e He) at 3.
  change (e :: drop (S i) q) with ([e] ++ drop (S i) q).
  rewrite !entries_of_app. unfold entries_of.
  destruct (decide (mThreadId e = t)) as [Heq|Hne].
  - rewrite (filter_none _ (take i q)); [done|].
    apply Forall_forall. intros e' [j Hj]%list_elem_of_lookup Heq'.
    pose proof (lookup_lt_Some _ _ _ Hj) as Hlt. rewrite length_take in Hlt.
    rewrite lookup_take_lt in Hj by lia.
    apply (Hb j e'); [lia|done|congruence].
  - rewrite (filter_cons_False _ e) by done. by rewrite filter_nil.
Qed.

Lemma init_Hist : Hist [] init.
Proof.
  intros _. split; [done|]. exists [], []. by split.
Qed.

(** The two ways a trip round the loop can go. *)
Lemma iteration_cases st st' :
  iteration st = Some st' →
  ∃ i e st1, mCurrentLog st = Some i ∧ mLogQueue st !! i = Some e ∧
    (st' = set_thread Draining st1 ∨
     st' = set_thread Waiting (set_mutex false st1)) ∧
    ((mFlushed (mFunctor e st) = true ∧ st1 = after_flush i e st) ∨
     (mFlushed (mFunctor e st) = false ∧ st1 = after_keep i e st)).
Proof.
  intros Hit. unfold iteration in Hit.
  destruct (mCurrentLog st) as [i|] eqn:Hcur;
    [|unfold do_body in Hit; by rewrite Hcur in Hit].
  destruct (mLogQueue st !! i) as [e|] eqn:He;
    [|unfold do_body in Hit; rewrite Hcur in Hit; simpl in Hit;
      by rewrite He in Hit].
  exists i, e.
  destruct (mFlushed (mFunctor e st)) eqn:Hfl.
  - rewrite (do_body_flush st i e) in Hit by done. simpl in Hit.
    injection Hit as <-. exists (after_flush i e st).
    split; [done|]. split; [done|]. split; [|by left].
    case_bool_decide; [by left|by right].
  - rewrite (do_body_keep st i e) in Hit by done. simpl in Hit.
    injection Hit as <-. exists (after_keep i e st).
    split; [done|]. split; [done|]. split; [|by right].
    destruct (loop_cond _); [by left|by right].
Qed.

Lemma step_closing l st st' :
  Inv st → step l st = Some st' → mClosing st' = false → mClosing st = false.
Proof.
  intros [Hs _ _ _ _ _]. destruct l as [id value| |]; simpl.
  - destruct (mLogMutex st); [done|]. intros [= <-]. unfold write. simpl.
    destruct (mCurrentThreadId st) as [o|]; [|done].
    destruct (decide (o = id)); [|done]. by destruct (mCurrentLog st).
  - destruct (mLogMutex st); [done|]. by intros [= <-].
  - unfold serialize. destruct (mThread st); try done.
    + destruct (mLogMutex st); [done|]. destruct (wake_pred st); [|done].
      by intros [= <-].
    + destruct (mClosing st) eqn:Hcl; [|done]. intros [= <-].
      destruct (close_outer_spec st Hs) as (ts & _ & D).
      unfold closing_path, flush.
      set (st2 := close_outer _ st) in *. clearbody st2.
      destruct D as [D1 D2 D3 D4 D5 D6 D7 D8 D9]. simpl. congruence.
    + intros (i & e & st1 & _ & _ & [-> | ->] & [[_ ->]|[_ ->]])%iteration_cases;
        done.
Qed.

Lemma write_Hist ls st id value :
  Inv st → Hist ls st → Hist (ls ++ [Append id value]) (write id value st).
Proof.
  intros [Hs _ _ _ _ _] HH Hcl.
  assert (mClosing st = false) as Hcl0.
  { revert Hcl. unfold write. simpl.
    destruct (mCurrentThreadId st) as [o|]; [|done].
    destruct (decide (o = id)); [|done]. by destruct (mCurrentLog st). }
  destruct (HH Hcl0) as (Happ & segs & rest & [L1 L2 L3 L4 L5]).
  assert (invoked (write id value st) = invoked st) as Hinv.
  { unfold write. simpl. destruct (mCurrentThreadId st) as [o|]; [|done].
    destruct (decide (o = id)); [|done]. by destruct (mCurrentLog st). }
  assert (mStream (write id value st) = mStream st) as Hstr.
  { unfold write. simpl. destruct (mCurrentThreadId st) as [o|]; [|done].
    destruct (decide (o = id)); [|done]. by destruct (mCurrentLog st). }
  split.
  - intros t. rewrite appended_snoc, Happ, Hinv, write_queue.
    rewrite app_assoc, (entries_of_app t (_ ++ _)). unfold values.
    rewrite fmap_app. f_equal. unfold appended, entries_of. simpl.
    destruct (decide (id = t)) as [->|Hne].
    + by rewrite filter_cons_True.
    + by rewrite filter_cons_False.
  - exists segs, rest. split; rewrite ?Hinv, ?Hstr, ?write_cout; try done.
    destruct (mCurrentThreadId st) as [o|] eqn:Ho.
    + assert (mCurrentThreadId (write id value st) = Some o) as ->; [|done].
      unfold write. simpl. rewrite Ho.
      destruct (decide (o = id)); [|done]. by destruct (mCurrentLog st).
    + destruct rest as [|e rest]; [done|].
      apply Forall_cons in L5 as [[? _] _]. done.
Qed.

Lemma rendering_values_snoc es e :
  rendering (values (es ++ [e])) = rendering (values es) +:+ rendered (mValue e).
Proof. unfold values. rewrite fmap_app. apply rendering_snoc. Qed.

Lemma erase_history t st i e :
  Sched (mLogQueue st) (Some i) (mCurrentThreadId st) →
  mLogQueue st !! i = Some e →
  values (entries_of t ((invoked st ++ [e]) ++ delete i (mLogQueue st))) =
  values (entries_of t (invoked st ++ mLogQueue st)).
Proof.
  intros Hs He.
  destruct (sched_cursor _ _ _ Hs i eq_refl) as (e' & He' & _ & Hb).
  assert (e' = e) as -> by congruence.
  rewrite <- app_assoc, !entries_of_app.
  by rewrite (entries_of_erase t _ i e).
Qed.

Lemma after_flush_Hist ls st i e :
  Inv st → Hist ls st → mClosing st = false →
  mCurrentLog st = Some i → mLogQueue st !! i = Some e →
  flushes (mValue e) = true →
  Hist ls (after_flush i e st).
Proof.
  intros [Hs _ _ _ _ _] HH Hcl Hcur He Hfl _. rewrite Hcur in Hs.
  destruct (HH Hcl) as (Happ & segs & rest & [L1 L2 L3 L4 L5]).
  destruct (sched_cursor _ _ _ Hs i eq_refl) as (e' & He' & Ho & _).
  assert (e' = e) as -> by congruence.
  split.
  - intros t. rewrite Happ. symmetry. by apply erase_history.
  - exists (segs ++ [rest ++ [e]]), []. unfold after_flush. split; simpl.
    + rewrite L1, concat_app. simpl. by rewrite !app_nil_r, app_assoc.
    + apply Forall_app. split; [done|]. apply Forall_singleton.
      exists rest, e. split; [done|]. split; [done|].
      eapply Forall_impl; [exact L5|]. intros x [Hx ?]. split; [|done].
      rewrite Ho in Hx. by injection Hx.
    + rewrite fmap_app, L3, L4. simpl. f_equal. f_equal.
      by rewrite rendering_values_snoc.
    + done.
    + done.
Qed.

Lemma after_keep_Hist ls st i e :
  Inv st → Hist ls st → mClosing st = false →
  mCurrentLog st = Some i → mLogQueue st !! i = Some e →
  flushes (mValue e) = false →
  Hist ls (after_keep i e st).
Proof.
  intros [Hs _ _ _ _ _] HH Hcl Hcur He Hfl _. rewrite Hcur in Hs.
  destruct (HH Hcl) as (Happ & segs & rest & [L1 L2 L3 L4 L5]).
  destruct (sched_cursor _ _ _ Hs i eq_refl) as (e' & He' & Ho & _).
  assert (e' = e) as -> by congruence.
  split.
  - intros t. rewrite Happ. symmetry. by apply erase_history.
  - exists segs, (rest ++ [e]). unfold after_keep. split; simpl.
    + by rewrite L1, app_assoc.
    + done.
    + done.
    + by rewrite L4, rendering_values_snoc.
    + apply Forall_app. split; [done|]. by apply Forall_singleton.
Qed.

Lemma Hist_thread ls st pc : Hist ls st → Hist ls (set_thread pc st).
Proof.
  intros HH Hcl. destruct (HH Hcl) as (Happ & segs & rest & [L1 L2 L3 L4 L5]).
  split; [exact Happ|]. exists segs, rest. by split.
Qed.

Lemma Hist_mutex ls st b : Hist ls st → Hist ls (set_mutex b st).
Proof.
  intros HH Hcl. destruct (HH Hcl) as (Happ & segs & rest & [L1 L2 L3 L4 L5]).
  split; [exact Happ|]. exists segs, rest. by split.
Qed.

Lemma serialize_Hist ls st st' :
  Inv st → Hist ls st → serialize st = Some st' →
  Hist (ls ++ [Serialize]) st'.
Proof.
  intros HI HH Hstep.
  assert (∀ t, appended t (ls ++ [Serialize]) = appended t ls) as Hsame.
  { intros t. rewrite appended_snoc. apply app_nil_r. }
  assert (∀ st1, Hist ls st1 → Hist (ls ++ [Serialize]) st1) as Hlift.
  { intros st1 H1 Hcl. destruct (H1 Hcl) as [Happ Hlines].
    split; [|done]. intros t. by rewrite Hsame. }
  intros Hcl'.
  pose proof (step_closing Serialize st st' HI Hstep Hcl') as Hcl.
  revert Hcl'. apply Hlift. clear Hlift Hsame.
  unfold serialize in Hstep. destruct (mThread st) eqn:Hpc; try done.
  - destruct (mLogMutex st); [done|]. destruct (wake_pred st); [|done].
    injection Hstep as <-. by apply Hist_thread, Hist_mutex.
  - rewrite Hcl in Hstep.
    apply iteration_cases in Hstep
      as (i & e & st1 & Hcur & He & Hst' & Hcase).
    assert (Hist ls st1) as H1.
    { rewrite mFunctor_flushed, (inv_flushed _ HI) in Hcase. simpl in Hcase.
      destruct Hcase as [[Hfl ->]|[Hfl ->]].
      - by apply after_flush_Hist.
      - by apply after_keep_Hist. }
    destruct Hst' as [-> | ->]; [|apply Hist_thread];
      by first [apply Hist_thread | apply Hist_mutex].
  - apply iteration_cases in Hstep
      as (i & e & st1 & Hcur & He & Hst' & Hcase).
    assert (Hist ls st1) as H1.
    { rewrite mFunctor_flushed, (inv_flushed _ HI) in Hcase. simpl in Hcase.
      destruct Hcase as [[Hfl ->]|[Hfl ->]].
      - by apply after_flush_Hist.
      - by apply after_keep_Hist. }
    destruct Hst' as [-> | ->]; [|apply Hist_thread];
      by first [apply Hist_thread | apply Hist_mutex].
Qed.

Lemma step_Hist ls l st st' :
  Inv st → Hist ls st → step l st = Some st' → Hist (ls ++ [l]) st'.
Proof.
  intros HI HH. destruct l as [id value| |]; simpl.
  - destruct (mLogMutex st); [done|]. intros [= <-]. by apply write_Hist.
  - destruct (mLogMutex st); [done|]. intros [= <-]. by intros ?.
  - by apply serialize_Hist.
Qed.

Lemma run_Hist ls : ∀ ls0 st0 st,
  Inv st0 → Hist ls0 st0 → run ls st0 = Some st → Hist (ls0 ++ ls) st.
Proof.
  induction ls as [|l ls IH]; intros ls0 st0 st HI HH; simpl.
  - intros [= <-]. by rewrite app_nil_r.
  - destruct (step l st0) as [st1|] eqn:Hstep; [|done]. simpl. intros Hrun.
    rewrite (assoc_L (++) ls0 [l] ls : ls0 ++ l :: ls = (ls0 ++ [l]) ++ ls).
    eapply IH; [by eapply step_Inv|by eapply step_Hist|done].
Qed.

Lemma reachable_Hist ls st : run ls init = Some st → Hist ls st.
Proof. apply (run_Hist ls [] init st init_Inv init_Hist). Qed.

(** The entries of one thread among complete lines end where a line ends. *)
Lemma whole_lines_end_in_flush t segs :
  Forall (λ seg, ∃ body f,
            seg = body ++ [f] ∧ flushes (mValue f) = true ∧
            Forall (λ e, mThreadId e = mThreadId f ∧
                         flushes (mValue e) = false) body) segs →
  let vs := values (entries_of t (concat segs)) in
  vs = [] ∨ ∃ pre' f', vs = pre' ++ [f'] ∧ flushes f' = true.
Proof.
  induction segs as [|seg segs IH] using rev_ind; intros Hsegs; [by left|].
  apply Forall_app in Hsegs as [Hsegs Hseg]. apply Forall_inv in Hseg.
  destruct Hseg as (body & f & -> & Hf & Hbody).
  rewrite concat_app. simpl. rewrite app_nil_r, entries_of_app.
  destruct (decide (mThreadId f = t)) as [Heq|Hne].
  - right. exists (values (entries_of t (concat segs) ++ entries_of t body)),
      (mValue f).
    split; [|done]. rewrite entries_of_app. unfold entries_of at 3.
    rewrite filter_cons_True, filter_nil by done.
    unfold values. by rewrite !fmap_app, app_assoc.
  - assert (entries_of t (body ++ [f]) = []) as ->.
    { apply filter_none. apply Forall_app. split.
      - eapply Forall_impl; [exact Hbody|]. intros e [He _]. congruence.
      - by apply Forall_singleton. }
    rewrite app_nil_r. by apply IH.
Qed.

Lemma own_entries t es :
  Forall (λ e, mThreadId e = t) es → entries_of t es = es.
Proof. apply filter_all. Qed.

(** C1, refuted as stated: on the closing path the flush of thread 2 writes
    nothing by itself, and the one text that reaches [std::cout] holds the
    line of thread 2 behind the text of thread 1. *)
Lemma shutdown_text_mixes_threads :
  run shutdown_race init = Some after_shutdown_race ∧
  appended 2 shutdown_race = [Text "x"; Endl] ∧
  rendering (appended 2 shutdown_race) = "x" +:+ newline ∧
  cout after_shutdown_race = ["ax" +:+ newline] ∧
  cout after_shutdown_race ≠ [rendering (appended 2 shutdown_race)].
Proof. repeat split. discriminate. Qed.

(** C1, as the code has it: off the closing path, when the drain loop
    executes a flushing entry of thread [T], what it writes to [std::cout] is
    the text of the values [T] has appended since its previous flush, this one
    included, in the order [T] appended them, and nothing else.  The values of
    [T] are [pre], which is empty or ends with the previous flush of [T], then
    [body], then the flushing value, then what [T] still has queued; the text
    written renders [body] and the flushing value. *)
Theorem flush_emits_the_threads_line ls st i e :
  run ls init = Some st →
  in_loop st →
  mCurrentLog st = Some i → mLogQueue st !! i = Some e →
  flushes (mValue e) = true →
  ∃ st' pre body,
    step Serialize st = Some st' ∧
    cout st' = cout st ++ [rendering (body ++ [mValue e])] ∧
    appended (mThreadId e) ls =
      pre ++ body ++
      mValue e :: values (entries_of (mThreadId e) (delete i (mLogQueue st))) ∧
    (pre = [] ∨ ∃ pre' f', pre = pre' ++ [f'] ∧ flushes f' = true) ∧
    Forall (λ v, flushes v = false) body.
Proof.
  intros Hrun Hloop Hcur He Hfl.
  assert (Inv st) as HI by (apply reachable_Inv; by exists ls).
  pose proof HI as [Hs Hclear _ _ _ _].
  destruct (reachable_Hist ls st Hrun (proj2 Hloop))
    as (Happ & segs & rest & [L1 L2 L3 L4 L5]).
  rewrite Hcur in Hs.
  destruct (sched_cursor _ _ _ Hs i eq_refl) as (e' & He' & Ho & Hb).
  assert (e' = e) as -> by congruence.
  assert (Forall (λ x, mThreadId x = mThreadId e) rest) as Hrest.
  { eapply Forall_impl; [exact L5|]. intros x [Hx _]. congruence. }
  set (st' := if bool_decide (delete i (mLogQueue st) ≠ [])
              then set_thread Draining (after_flush i e st)
              else set_thread Waiting (set_mutex false (after_flush i e st))).
  exists st', (values (entries_of (mThreadId e) (concat segs))), (values rest).
  split; [|split; [|split; [|split]]].
  - simpl. rewrite (in_loop_serialize _ Hloop). unfold iteration.
    rewrite (do_body_flush st i e Hcur He)
      by (by rewrite mFunctor_flushed, Hfl, orb_true_r).
    done.
  - assert (cout st' = cout (after_flush i e st)) as ->.
    { unfold st'. by case_bool_decide. }
    unfold after_flush. simpl. rewrite L4. do 2 f_equal.
    symmetry. apply rendering_snoc.
  - rewrite Happ, L1, !entries_of_app, (own_entries _ rest Hrest).
    rewrite <- (entries_of_erase (mThreadId e) _ i e He Hb).
    unfold entries_of at 2. rewrite filter_cons_True, filter_nil by done.
    unfold values. rewrite !fmap_app. by rewrite <- app_assoc.
  - by apply whole_lines_end_in_flush.
  - apply Forall_fmap. eapply Forall_impl; [exact L5|]. by intros x [_ ?].
Qed.

Lemma flush_emits_the_threads_line_witness :
  run before_flush init = Some at_flush ∧
  in_loop at_flush ∧
  mCurrentLog at_flush = Some 1 ∧
  mLogQueue at_flush !! 1 = Some (mkEntry 1 Endl) ∧
  flushes (mValue (mkEntry 1 Endl)) = true ∧
  ∃ st' pre body,
    step Serialize at_flush = Some st' ∧
    cout st' =
      cout at_flush ++ [rendering (body ++ [mValue (mkEntry 1 Endl)])] ∧
    appended (mThreadId (mkEntry 1 Endl)) before_flush =
      pre ++ body ++
      mValue (mkEntry 1 Endl)
        :: values (entries_of (mThreadId (mkEntry 1 Endl))
                     (delete 1 (mLogQueue at_flush))) ∧
    (pre = [] ∨ ∃ pre' f', pre = pre' ++ [f'] ∧ flushes f' = true) ∧
    Forall (λ v, flushes v = false) body.
Proof.
  assert (in_loop at_flush) as Hloop by (split; [by right|reflexivity]).
  split; [reflexivity|]. split; [exact Hloop|]. split; [reflexivity|].
  split; [reflexivity|]. split; [reflexivity|].
  apply (flush_emits_the_threads_line before_flush at_flush 1 (mkEntry 1 Endl));
    first [reflexivity | exact Hloop].
Defined.

(** X14: before shutdown every text written to [std::cout] is a whole line
    of a single thread: the values that thread appended between two of its
    flushes, the closing one included, rendered in the order of the
    appends. *)
Lemma sink_holds_whole_lines ls st s :
  run ls init = Some st → mClosing st = false → s ∈ cout st →
  ∃ t seg, line_of (appended t ls) seg ∧ s = rendering seg.
Proof.
  intros Hrun Hcl Hs.
  destruct (reachable_Hist ls st Hrun Hcl)
    as (Happ & segs & rest & [L1 L2 L3 L4 L5]).
  rewrite L3 in Hs. apply list_elem_of_fmap in Hs as (seg & -> & Hseg).
  apply list_elem_of_split in Hseg as (segs1 & segs2 & ->).
  apply Forall_app in L2 as [Hsegs1 Hline]. apply Forall_inv in Hline.
  destruct Hline as (body & f & -> & Hf & Hbody).
  exists (mThreadId f), (values (body ++ [f])). split; [|done].
  exists (values (entries_of (mThreadId f) (concat segs1))),
    (values body), (mValue f),
    (values (entries_of (mThreadId f) (concat segs2 ++ rest ++ mLogQueue st))).
  split; [|split; [|split; [|split]]].
  - rewrite Happ, L1, concat_app. simpl.
    rewrite <- !app_assoc, !entries_of_app.
    rewrite (own_entries _ body)
      by (eapply Forall_impl; [exact Hbody|]; by intros x [? _]).
    unfold entries_of at 2. rewrite filter_cons_True, filter_nil by done.
    unfold values. by rewrite !fmap_app.
  - unfold values. by rewrite fmap_app.
  - by apply whole_lines_end_in_flush.
  - apply Forall_fmap. eapply Forall_impl; [exact Hbody|]. by intros x [_ ?].
  - done.
Qed.

(** C6: as long as no closure that has been invoked flushes and the
    destructor has not run, nothing has been written to [std::cout], whatever
    the threads have appended and however far the loop has drained. *)
Theorem no_flush_no_output ls st :
  run ls init = Some st → mClosing st = false →
  Forall (λ e, flushes (mValue e) = false) (invoked st) →
  cout st = [].
Proof.
  intros Hrun Hcl Hquiet.
  destruct (reachable_Hist ls st Hrun Hcl)
    as (Happ & segs & rest & [L1 L2 L3 L4 L5]).
  destruct segs as [|seg segs]; [by rewrite L3|].
  apply Forall_inv in L2 as (body & f & -> & Hf & _).
  rewrite L1 in Hquiet. simpl in Hquiet.
  rewrite !Forall_app in Hquiet.
  destruct Hquiet as [[[_ Hbad] _] _]. apply Forall_inv in Hbad. congruence.
Qed.

Lemma no_flush_no_output_witness :
  run quiet init = Some after_quiet ∧ mClosing after_quiet = false ∧
  Forall (λ e, flushes (mValue e) = false) (invoked after_quiet) ∧
  cout after_quiet = [].
Proof.
  assert (Forall (λ e, flushes (mValue e) = false) (invoked after_quiet))
    as Hquiet by (repeat constructor).
  split; [reflexivity|]. split; [reflexivity|]. split; [exact Hquiet|].
  apply (no_flush_no_output quiet after_quiet); first [reflexivity|exact Hquiet].
Defined.

(** ** Nothing is lost, nothing is written twice *)

Lemma queued_by_snoc ls l : queued_by (ls ++ [l]) = queued_by ls ++ queued_by [l].
Proof. unfold queued_by. by rewrite omap_app. Qed.

Lemma appended_queued_by t ls :
  appended t ls = values (entries_of t (queued_by ls)).
Proof.
  induction ls as [|l ls IH]; [done|].
  destruct l as [id value| |]; simpl; try done.
  unfold appended, queued_by, entries_of, values in *. simpl.
  destruct (decide (id = t)) as [->|Hne].
  - rewrite filter_cons_True by done. simpl. by rewrite IH.
  - by rewrite filter_cons_False.
Qed.

Lemma sink_text_snoc texts s :
  foldr String.append "" (texts ++ [s]) = foldr String.append "" texts +:+ s.
Proof.
  induction texts as [|x texts IH]; simpl.
  - apply string_app_nil_r.
  - by rewrite IH, string_app_assoc.
Qed.

Lemma Lines_same st st' segs rest :
  invoked st' = invoked st → cout st' = cout st → mStream st' = mStream st →
  mCurrentThreadId st' = mCurrentThreadId st →
  Lines st segs rest → Lines st' segs rest.
Proof.
  intros E1 E2 E3 E4 [L1 L2 L3 L4 L5]. split; rewrite ?E1, ?E2, ?E3, ?E4; done.
Qed.

Lemma init_Past : Past [] init.
Proof.
  split; try done. intros _. exists [], []. by split.
Qed.

Lemma write_fields id value st :
  invoked (write id value st) = invoked st ∧
  mStream (write id value st) = mStream st ∧
  mThread (write id value st) = mThread st.
Proof.
  unfold write. simpl. destruct (mCurrentThreadId st) as [o|]; [|done].
  destruct (decide (o = id)); [|done]. by destruct (mCurrentLog st).
Qed.

Lemma write_owner id value st :
  Inv st →
  mCurrentThreadId (write id value st) =
    match mCurrentThreadId st with
    | None => Some id
    | Some o => Some o
    end.
Proof.
  intros [Hs _ _ _ _ _]. unfold write. simpl.
  destruct (mCurrentThreadId st) as [o|] eqn:Ho.
  - destruct (decide (o = id)); [|done]. by destruct (mCurrentLog st).
  - destruct (sched_unowned _ _ _ Hs eq_refl) as [-> _]. done.
Qed.

Lemma queued_entry_has_producer ls st e :
  invoked st ++ mLogQueue st ≡ₚ queued_by ls →
  e ∈ invoked st ++ mLogQueue st →
  entries_of (mThreadId e) (queued_by ls) ≠ [].
Proof.
  intros Hperm He Hnil. rewrite Hperm in He.
  assert (e ∈ entries_of (mThreadId e) (queued_by ls)) as Hin.
  { apply list_elem_of_filter. by split. }
  rewrite Hnil in Hin. by apply elem_of_nil in Hin.
Qed.

Lemma write_Past ls st id value :
  Inv st → Past ls st → Past (ls ++ [Append id value]) (write id value st).
Proof.
  intros HI [P1 P2 P3 P4 P5 P6].
  destruct (write_fields id value st) as (Ei & Es & Et).
  pose proof (write_owner id value st HI) as Eo.
  assert (queued_by (ls ++ [Append id value])
          = queued_by ls ++ [mkEntry id value]) as Eq
    by apply queued_by_snoc.
  split; rewrite ?Ei, ?Es, ?Et, ?Eq, ?write_queue.
  - intros t. by rewrite app_assoc, !entries_of_app, P1, entries_of_app.
  - by rewrite app_assoc, P2.
  - unfold sink_text. by rewrite write_cout.
  - intros Hpc. destruct (P4 Hpc) as (segs & rest & HL).
    exists segs, rest. destruct HL as [L1 L2 L3 L4 L5].
    split; rewrite ?Ei, ?Es, ?write_cout; try done.
    rewrite Eo. destruct (mCurrentThreadId st) as [o|]; [done|].
    destruct rest as [|e rest]; [done|].
    apply Forall_inv in L5 as [? _]. done.
  - intros Hpc a. rewrite Eo, entries_of_app.
    destruct (mCurrentThreadId st) as [o|] eqn:Ho.
    + intros [= <-] Hnil. apply app_eq_nil in Hnil as [Hnil _].
      by apply (P5 Hpc o).
    + intros [= <-] Hnil. apply app_eq_nil in Hnil as [_ Hnil].
      unfold entries_of in Hnil. by rewrite filter_cons_True in Hnil.
  - done.
Qed.

Lemma close_Past ls st : Past ls st → Past (ls ++ [Close]) (close st).
Proof.
  intros [P1 P2 P3 P4 P5 P6].
  assert (queued_by (ls ++ [Close]) = queued_by ls) as Eq.
  { rewrite queued_by_snoc. apply app_nil_r. }
  split; rewrite ?Eq; try done.
  intros Hpc. destruct (P4 Hpc) as (segs & rest & HL).
  exists segs, rest. by apply (Lines_same st).
Qed.

Lemma erase_entries t st i e :
  Sched (mLogQueue st) (Some i) (mCurrentThreadId st) →
  mLogQueue st !! i = Some e →
  entries_of t ((invoked st ++ [e]) ++ delete i (mLogQueue st)) =
  entries_of t (invoked st ++ mLogQueue st).
Proof.
  intros Hs He.
  destruct (sched_cursor _ _ _ Hs i eq_refl) as (e' & He' & _ & Hb).
  assert (e' = e) as -> by congruence.
  rewrite <- app_assoc, !entries_of_app.
  by rewrite (entries_of_erase t _ i e).
Qed.

(** A pass of the loop body keeps [Past], whichever branch it takes: [st1]
    is [st] with the entry [e] at the cursor invoked and erased. *)
Lemma body_Past ls st st1 i e :
  Inv st → Past ls st → mClosing st = false → mThread st ≠ Terminated →
  mCurrentLog st = Some i → mLogQueue st !! i = Some e →
  (flushes (mValue e) = true ∧ st1 = after_flush i e st) ∨
  (flushes (mValue e) = false ∧ st1 = after_keep i e st) →
  Past ls st1.
Proof.
  intros HI HP Hcl Hpc Hcur He Hcase.
  pose proof HI as [Hs _ _ _ _ _]. rewrite Hcur in Hs.
  pose proof HP as [P1 P2 P3 P4 P5 P6].
  assert (Hist ls st) as HH.
  { intros _. split; [|by apply P4]. intros t.
    by rewrite appended_queued_by, P1. }
  assert (mThread st1 = mThread st ∧ mClosing st1 = false ∧
          invoked st1 = invoked st ++ [e] ∧
          mLogQueue st1 = delete i (mLogQueue st)) as (Et & Ec & Ei & Eq).
  { by destruct Hcase as [[_ ->]|[_ ->]]. }
  assert (Hist ls st1) as HH1.
  { destruct Hcase as [[Hfl ->]|[Hfl ->]].
    - by apply after_flush_Hist.
    - by apply after_keep_Hist. }
  assert (invoked st1 ++ mLogQueue st1 ≡ₚ queued_by ls) as Hperm.
  { rewrite Ei, Eq, <- P2, <- app_assoc. apply Permutation_app_head.
    simpl. symmetry. by apply delete_Permutation. }
  split; rewrite ?Et.
  - intros t. rewrite P1, Ei, Eq. symmetry. by apply erase_entries.
  - done.
  - rewrite Ei, rendering_values_snoc, <- P3.
    destruct Hcase as [[_ ->]|[_ ->]]; unfold sink_text; simpl.
    + by rewrite sink_text_snoc, string_app_nil_r, string_app_assoc.
    + by rewrite string_app_assoc.
  - intros _. by destruct (HH1 Ec) as [_ ?].
  - intros _ a Ha. destruct Hcase as [[_ ->]|[_ ->]]; simpl in Ha.
    + destruct (delete i (mLogQueue st)) as [|h q'] eqn:Hq; [done|].
      injection Ha as <-.
      apply (queued_entry_has_producer ls (after_flush i e st)); [done|].
      apply elem_of_app. right. simpl. rewrite Hq. by left.
    + by apply P5.
  - done.
Qed.

Lemma entries_of_twice t t0 q :
  entries_of t (entries_of t0 q) = if decide (t = t0) then entries_of t q else [].
Proof.
  unfold entries_of. rewrite list_filter_filter.
  destruct (decide (t = t0)) as [->|Hne].
  - apply list_filter_iff. intros e. split; [by intros [? _]|done].
  - apply filter_none. apply Forall_forall. intros e _ [? ?]. congruence.
Qed.

Lemma entries_of_drain_order t ts q :
  threads_of q ts → entries_of t (drain_order ts q) = entries_of t q.
Proof.
  intros [Hnd Hts].
  assert (entries_of t (drain_order ts q)
          = if decide (t ∈ ts) then entries_of t q else []) as ->.
  { clear Hts. induction Hnd as [|t0 ts Hnotin Hnd IH]; [done|].
    change (drain_order (t0 :: ts) q)
      with (entries_of t0 q ++ drain_order ts q).
    rewrite entries_of_app, entries_of_twice, IH.
    destruct (decide (t = t0)) as [->|Hne].
    - rewrite (decide_False (P := t0 ∈ ts)) by done.
      rewrite decide_True by by left. apply app_nil_r.
    - destruct (decide (t ∈ ts)) as [Hin|Hout].
      + by rewrite decide_True by by right.
      + rewrite decide_False; [done|]. by intros [?|?]%elem_of_cons. }
  destruct (decide (t ∈ ts)) as [Hin|Hout]; [done|].
  symmetry. apply filter_none. apply Forall_forall. intros e He Heq.
  apply Hout, Hts. eauto.
Qed.

Lemma closing_Past ls st :
  Inv st → Past ls st →
  Past ls (set_thread Terminated (set_mutex false (closing_path st))).
Proof.
  intros [Hs _ _ _ _ _] [P1 P2 P3 P4 P5 P6].
  destruct (close_outer_spec st Hs) as (ts & Hts & D).
  unfold closing_path, flush.
  set (st2 := close_outer _ st) in *. clearbody st2.
  destruct D as [D1 D2 D3 D4 D5 D6 D7 D8 D9].
  split; simpl; rewrite ?D1, ?D4, ?app_nil_r; try done.
  - intros t. by rewrite P1, !entries_of_app, entries_of_drain_order.
  - rewrite <- P2. apply Permutation_app_head. by apply drain_order_perm.
  - unfold sink_text, values. simpl.
    rewrite sink_text_snoc, D5, D3, string_app_nil_r, fmap_app, rendering_app.
    fold (values (invoked st)). rewrite <- P3. unfold sink_text.
    by rewrite string_app_assoc.
Qed.

Lemma Past_thread ls st pc :
  Past ls st → mThread st ≠ Terminated → pc ≠ Terminated →
  Past ls (set_thread pc st).
Proof.
  intros [P1 P2 P3 P4 P5 P6] Hne Hpc. split; simpl; try done.
  - intros _. destruct (P4 Hne) as (segs & rest & HL).
    exists segs, rest. by apply (Lines_same st).
  - intros _. by apply P5.
Qed.

Lemma Past_mutex ls st b : Past ls st → Past ls (set_mutex b st).
Proof.
  intros [P1 P2 P3 P4 P5 P6]. split; simpl; try done.
  intros Hne. destruct (P4 Hne) as (segs & rest & HL).
  exists segs, rest. by apply (Lines_same st).
Qed.

Lemma iteration_Past ls st st' :
  Inv st → Past ls st → mClosing st = false → mThread st ≠ Terminated →
  iteration st = Some st' → Past ls st'.
Proof.
  intros HI HP Hcl Hpc Hit.
  apply iteration_cases in Hit as (i & e & st1 & Hcur & He & Hst' & Hcase).
  rewrite mFunctor_flushed, (inv_flushed _ HI) in Hcase. simpl in Hcase.
  assert (Past ls st1) as H1 by by eapply body_Past.
  assert (mThread st1 ≠ Terminated) as Hpc1.
  { by destruct Hcase as [[_ ->]|[_ ->]]. }
  destruct Hst' as [-> | ->].
  - by apply Past_thread.
  - apply Past_thread; [by apply Past_mutex|done|done].
Qed.

Lemma serialize_Past ls st st' :
  Inv st → Past ls st → serialize st = Some st' →
  Past (ls ++ [Serialize]) st'.
Proof.
  intros HI HP Hstep.
  assert (queued_by (ls ++ [Serialize]) = queued_by ls) as Eq.
  { rewrite queued_by_snoc. apply app_nil_r. }
  assert (Past ls st') as [P1 P2 P3 P4 P5 P6]; [|split; by rewrite ?Eq].
  unfold serialize in Hstep. destruct (mThread st) eqn:Hpc; try done.
  - destruct (mLogMutex st); [done|]. destruct (wake_pred st); [|done].
    injection Hstep as <-.
    apply Past_thread; [by apply Past_mutex|simpl; by rewrite Hpc|done].
  - destruct (mClosing st) eqn:Hcl.
    + injection Hstep as <-. by apply closing_Past.
    + eapply iteration_Past; eauto. by rewrite Hpc.
  - eapply iteration_Past; eauto; [|by rewrite Hpc].
    by destruct (inv_draining _ HI Hpc).
Qed.

Lemma step_Past ls l st st' :
  Inv st → Past ls st → step l st = Some st' → Past (ls ++ [l]) st'.
Proof.
  intros HI HP. destruct l as [id value| |]; simpl.
  - destruct (mLogMutex st); [done|]. intros [= <-]. by apply write_Past.
  - destruct (mLogMutex st); [done|]. intros [= <-]. by apply close_Past.
  - by apply serialize_Past.
Qed.

Lemma run_Past ls : ∀ ls0 st0 st,
  Inv st0 → Past ls0 st0 → run ls st0 = Some st → Past (ls0 ++ ls) st.
Proof.
  induction ls as [|l ls IH]; intros ls0 st0 st HI HP; simpl.
  - intros [= <-]. by rewrite app_nil_r.
  - destruct (step l st0) as [st1|] eqn:Hstep; [|done]. simpl. intros Hrun.
    rewrite (assoc_L (++) ls0 [l] ls : ls0 ++ l :: ls = (ls0 ++ [l]) ++ ls).
    eapply IH; [by eapply step_Inv|by eapply step_Past|done].
Qed.

Lemma reachable_Past ls st : run ls init = Some st → Past ls st.
Proof. apply (run_Past ls [] init st init_Inv init_Past). Qed.

(** X1: in every state the program reaches, shutdown included, the closures
    invoked so far together with the entries still queued are, up to order,
    the entries appended so far: no entry is dropped, none is invoked
    twice. *)
Theorem every_entry_invoked_or_queued ls st :
  run ls init = Some st →
  invoked st ++ mLogQueue st ≡ₚ queued_by ls.
Proof. intros Hrun. apply (past_perm _ _ (reachable_Past ls st Hrun)). Qed.

(** X2: in every state the program reaches, shutdown included, the closures
    of one thread are invoked in the order in which the thread appended them:
    those invoked so far, followed by those still queued, are the appends of
    the thread, oldest first. *)
Theorem thread_order_is_kept ls st t :
  run ls init = Some st →
  entries_of t (invoked st) ++ entries_of t (mLogQueue st)
    = entries_of t (queued_by ls).
Proof.
  intros Hrun. rewrite <- entries_of_app. symmetry.
  apply (past_entries _ _ (reachable_Past ls st Hrun)).
Qed.

(** X3: in every state the program reaches, the characters written to
    [std::cout] so far, followed by those in the buffer, are the characters
    rendered by the closures invoked so far, in the order of invocation:
    [flush] neither loses nor repeats a character. *)
Theorem sink_and_buffer_hold_invoked_text ls st :
  run ls init = Some st →
  sink_text st +:+ mStream st = rendering (values (invoked st)).
Proof. intros Hrun. apply (past_text _ _ (reachable_Past ls st Hrun)). Qed.

(** ** The drain pass ends *)

(** A step of the pass that does not end it erases an entry. *)
Lemma pass_step_shortens st st1 :
  Inv st → mLogMutex st = true → serialize st = Some st1 →
  mLogMutex st1 = true →
  length (mLogQueue st1) < length (mLogQueue st).
Proof.
  intros [Hs Hf Hm Hw Hdr Ht] Hheld Hstep Hheld1.
  assert (iteration st = Some st1) as Hit.
  { unfold serialize in Hstep. destruct (mThread st); try done.
    - by rewrite Hheld in Hstep.
    - destruct (mClosing st); [|done]. injection Hstep as <-. done. }
  apply iteration_cases in Hit as (i & e & st0 & Hcur & He & Hst1 & Hcase).
  assert (mLogQueue st1 = delete i (mLogQueue st)) as ->.
  { destruct Hst1 as [-> | ->]; by destruct Hcase as [[_ ->]|[_ ->]]. }
  rewrite length_delete by eauto. apply lookup_lt_Some in He. lia.
Qed.

Lemma drain_pass_bound k : ∀ st,
  Inv st → mLogMutex st = true → length (mLogQueue st) ≤ k →
  ∃ n st', n ≤ S k ∧ run (replicate n Serialize) st = Some st' ∧
           mLogMutex st' = false.
Proof.
  induction k as [|k IH]; intros st HI Hheld Hlen.
  all: assert (holds_mutex (mThread st) = true) as Hpc
         by (by rewrite <- (inv_mutex _ HI)).
  all: destruct (serialize_progress st HI Hpc) as [st1 Hstep].
  all: destruct (mLogMutex st1) eqn:Hheld1;
    [|exists 1, st1; split; [lia|]; split; [|done];
      simpl; unfold step; by rewrite Hstep].
  all: pose proof (pass_step_shortens st st1 HI Hheld Hstep Hheld1).
  - lia.
  - destruct (IH st1) as (n & st' & Hn & Hrun & Hfree);
      [by eapply serialize_Inv|done|lia|].
    exists (S n), st'. split; [lia|]. split; [|done].
    simpl. unfold step. by rewrite Hstep.
Qed.

(** X4: once the serialize thread holds the mutex it gives it back: from any
    state the program reaches with the mutex held, at most one step more than
    there are queued entries brings the thread out of its pass, so a producer
    that waits for the mutex gets it. *)
Theorem drain_pass_ends ls st :
  run ls init = Some st → mLogMutex st = true →
  ∃ n st', n ≤ S (length (mLogQueue st)) ∧
           run (replicate n Serialize) st = Some st' ∧
           mLogMutex st' = false.
Proof.
  intros Hrun Hheld. apply drain_pass_bound; [|done|done].
  apply reachable_Inv. by exists ls.
Qed.

(** ** The floor *)

(** X5: before shutdown the floor never passes from a thread to another, or
    to nobody, without a write to [std::cout]: while [mClosing] is not set, a
    step after which the owner is no longer the same thread is a trip of the
    serialize thread round the [do ... while] that writes one text.  The
    closing path is left out: there line 141 hands the floor on from thread
    to thread with nothing written in between. *)
Theorem floor_passes_only_with_a_write ls st l st' a :
  run ls init = Some st → mClosing st = false →
  step l st = Some st' →
  mCurrentThreadId st = Some a → mCurrentThreadId st' ≠ Some a →
  l = Serialize ∧ in_loop st ∧ ∃ s, cout st' = cout st ++ [s].
Proof.
  intros Hrun Hcl Hstep Ho Hchanged.
  assert (Inv st) as HI by (apply reachable_Inv; by exists ls).
  destruct l as [id value| |]; simpl in Hstep.
  - destruct (mLogMutex st); [done|]. injection Hstep as <-.
    by rewrite (write_owner _ _ _ HI), Ho in Hchanged.
  - destruct (mLogMutex st); [done|]. by injection Hstep as <-.
  - split; [done|]. unfold serialize in Hstep.
    assert (∀ st1, iteration st = Some st1 → mCurrentThreadId st1 ≠ Some a →
                   ∃ s, cout st1 = cout st ++ [s]) as Hit.
    { intros st1 (i & e & st0 & _ & _ & Hst1 & Hcase)%iteration_cases Hne.
      destruct Hcase as [[_ ->]|[_ ->]].
      - eexists. by destruct Hst1 as [-> | ->].
      - by destruct Hst1 as [-> | ->]. }
    destruct (mThread st) eqn:Hpc; try done.
    + destruct (mLogMutex st); [done|]. destruct (wake_pred st); [|done].
      by injection Hstep as <-.
    + rewrite Hcl in Hstep. split; [split; [by left|done]|by apply Hit].
    + split; [split; [by right|done]|by apply Hit].
Qed.

(** X7: whenever nobody owns the floor, everything appended so far has been
    executed and written out: the queue and the buffer are empty, the
    closures invoked are the entries appended, and the text on [std::cout] is
    what they rendered. *)
Theorem free_floor_means_all_written ls st :
  run ls init = Some st →
  mCurrentThreadId st = None →
  mLogQueue st = [] ∧ mStream st = "" ∧
  invoked st ≡ₚ queued_by ls ∧
  sink_text st = rendering (values (invoked st)).
Proof.
  intros Hrun Ho.
  assert (Inv st) as HI by (apply reachable_Inv; by exists ls).
  destruct (reachable_Past ls st Hrun) as [P1 P2 P3 P4 P5 P6].
  destruct (sched_unowned _ _ _ (inv_sched _ HI) Ho) as [Hq _].
  assert (mStream st = "") as Hs.
  { assert (mThread st = Terminated ∨ mThread st ≠ Terminated) as [Ht|Ht]
      by (destruct (mThread st); auto); [by apply P6|].
    destruct (P4 Ht) as (segs & rest & [L1 L2 L3 L4 L5]).
    destruct rest as [|e rest]; [done|].
    apply Forall_inv in L5 as [? _]. congruence. }
  rewrite Hq, app_nil_r in P2. rewrite Hs, string_app_nil_r in P3. done.
Qed.

Lemma blocked_in_wait st :
  Inv st → mClosing st = false → serialize st = None →
  mThread st = Waiting ∧ mCurrentLog st = None.
Proof.
  intros HI Hcl Hstuck. pose proof HI as [Hs Hf Hm Hw Hdr Ht].
  assert (mThread st = Waiting) as Hpc.
  { destruct (mThread st) eqn:Hpc; try done.
    - destruct (serialize_progress st HI) as [? ?]; [by rewrite Hpc|].
      congruence.
    - destruct (serialize_progress st HI) as [? ?]; [by rewrite Hpc|].
      congruence.
    - rewrite Ht in Hcl; done. }
  split; [done|]. unfold serialize, wake_pred in Hstuck.
  rewrite Hpc, Hm, Hpc, Hcl in Hstuck. simpl in Hstuck.
  by destruct (mCurrentLog st).
Qed.

(** X8: the serialize thread never sleeps on work it may do: in a state the
    program reaches before shutdown in which the thread cannot move, it is
    blocked in [wait], and every entry still queued belongs to a thread other
    than the one that owns the floor. *)
Theorem blocked_worker_has_no_work_of_the_owner ls st :
  run ls init = Some st →
  mClosing st = false → step Serialize st = None →
  mThread st = Waiting ∧
  ∀ e, e ∈ mLogQueue st →
       ∃ a, mCurrentThreadId st = Some a ∧ a ≠ mThreadId e.
Proof.
  intros Hrun Hcl Hstuck.
  assert (Inv st) as HI by (apply reachable_Inv; by exists ls).
  destruct (blocked_in_wait st HI Hcl Hstuck) as [Hpc Hcur].
  split; [done|]. intros e He.
  destruct (mCurrentThreadId st) as [a|] eqn:Ho.
  - exists a. split; [done|]. intros ->.
    apply (sched_dry _ _ _ (inv_sched _ HI) Hcur e He). by rewrite Ho.
  - destruct (sched_unowned _ _ _ (inv_sched _ HI) Ho) as [Hq _].
    rewrite Hq in He. by apply elem_of_nil in He.
Qed.

(** ** Lines *)

Lemma flushing_whole_lines segs :
  Forall whole_line segs → length (flushing (concat segs)) = length segs.
Proof.
  induction 1 as [|seg segs (body & f & -> & Hf & Hbody) _ IH]; [done|].
  simpl. unfold flushing in *. rewrite !filter_app, length_app, IH.
  rewrite (filter_none _ body).
  - by rewrite filter_cons_True.
  - eapply Forall_impl; [exact Hbody|]. intros e [_ He]. by rewrite He.
Qed.

(** X6: until the closing path has run there is exactly one write to
    [std::cout] for each closure invoked that flushes. *)
Theorem one_write_per_flushing_closure ls st :
  run ls init = Some st → mThread st ≠ Terminated →
  length (cout st) = length (flushing (invoked st)).
Proof.
  intros Hrun Hpc.
  destruct (past_lines _ _ (reachable_Past ls st Hrun) Hpc)
    as (segs & rest & [L1 L2 L3 L4 L5]).
  rewrite L3, L1, length_fmap. unfold flushing. rewrite filter_app, length_app.
  fold (flushing (concat segs)). rewrite (flushing_whole_lines segs L2).
  rewrite (filter_none _ rest); [simpl; lia|].
  eapply Forall_impl; [exact L5|]. intros e [_ He]. by rewrite He.
Qed.

Lemma ends_flushed_last vs :
  ends_flushed vs ↔ ∀ x, last vs = Some x → flushes x = true.
Proof.
  split.
  - intros [->|(vs' & f & -> & Hf)] x; [done|].
    rewrite last_snoc. by intros [= <-].
  - intros Hlast. destruct (last vs) as [x|] eqn:Hx.
    + right. apply last_Some in Hx as [vs' ->]. exists vs', x. auto.
    + left. by apply last_None.
Qed.

(** Entries of one thread whose last one flushes split into whole lines. *)
Lemma split_into_lines t es : ∀ acc,
  Forall (λ e, mThreadId e = t) es →
  Forall (λ e, mThreadId e = t ∧ flushes (mValue e) = false) acc →
  (∀ x, last (acc ++ es) = Some x → flushes (mValue x) = true) →
  ∃ lines, acc ++ es = concat lines ∧ Forall whole_line lines.
Proof.
  induction es as [|e es IH]; intros acc Hes Hacc Hlast.
  - rewrite app_nil_r in *. exists []. split; [|done].
    destruct (last acc) as [x|] eqn:Hx; [|by apply last_None].
    pose proof (Hlast x eq_refl) as Hfl.
    apply last_Some_elem_of in Hx. rewrite Forall_forall in Hacc.
    destruct (Hacc x Hx) as [_ ?]. congruence.
  - apply Forall_cons in Hes as [He Hes].
    destruct (flushes (mValue e)) eqn:Hfl.
    + destruct (IH []) as (lines & Hlines & Hwhole); [done|done|..].
      { intros x Hx. apply Hlast. simpl in Hx.
        by rewrite last_app, last_cons, Hx. }
      exists ((acc ++ [e]) :: lines). split.
      * simpl. rewrite <- Hlines. simpl. by rewrite <- app_assoc.
      * apply Forall_cons. split; [|done]. exists acc, e.
        split; [done|]. split; [done|].
        eapply Forall_impl; [exact Hacc|]. intros x [? ?]. split; congruence.
    + destruct (IH (acc ++ [e])) as (lines & Hlines & Hwhole); [done|..].
      { apply Forall_app. split; [done|]. by apply Forall_singleton. }
      { intros x. rewrite <- app_assoc. apply Hlast. }
      exists lines. split; [|done]. rewrite <- Hlines.
      by rewrite <- app_assoc.
Qed.

Lemma groups_into_lines ts q :
  (∀ t x, last (entries_of t q) = Some x → flushes (mValue x) = true) →
  ∃ lines, drain_order ts q = concat lines ∧ Forall whole_line lines.
Proof.
  intros Hclosed. induction ts as [|t ts (lines & Hlines & Hwhole)].
  - by exists [].
  - destruct (split_into_lines t (entries_of t q) [])
      as (lines0 & Hlines0 & Hwhole0); [|done|by apply Hclosed|].
    { apply Forall_forall. by intros e [? _]%list_elem_of_filter. }
    exists (lines0 ++ lines). split; [|by apply Forall_app].
    change (drain_order (t :: ts) q)
      with (entries_of t q ++ drain_order ts q).
    rewrite concat_app, <- Hlines0, <- Hlines. done.
Qed.

Lemma rendering_concat lines :
  rendering (values (concat lines)) =
  foldr String.append "" ((λ seg, rendering (values seg)) <$> lines).
Proof.
  induction lines as [|seg lines IH]; [done|].
  simpl. unfold values in *. by rewrite fmap_app, rendering_app, IH.
Qed.

(** The closing path entered with the cursor on an entry starts with the
    owner of the floor. *)
Lemma close_outer_owner_first st i a :
  Sched (mLogQueue st) (mCurrentLog st) (mCurrentThreadId st) →
  mCurrentLog st = Some i → mCurrentThreadId st = Some a →
  ∃ ts, threads_of (mLogQueue st) (a :: ts) ∧
        Drained (drain_order (a :: ts) (mLogQueue st)) st
          (close_outer (S (length (mLogQueue st))) st).
Proof.
  intros [Hn Hc Hd] Hcur Ho.
  pose proof (Hc i Hcur) as Hfirst. rewrite Ho in Hfirst.
  pose proof Hfirst as (e & He & _ & _).
  pose proof (lookup_lt_Some _ _ _ He) as Hi.
  simpl. destruct (mLogQueue st) as [|h q] eqn:Hq; [simpl in Hi; lia|].
  rewrite Hcur, <- Hq. rewrite <- Hq in Hfirst, Hi.
  rewrite (close_inner_spec _ _ i) by (rewrite ?Hcur, ?iter_at_lt; done || lia).
  destruct (close_outer_end (length (mLogQueue st)) (after_sweep i st))
    as (ts & Hts & Hdr); [done|..].
  { unfold after_sweep. simpl. rewrite Ho.
    destruct (first_of_served _ _ _ Hfirst) as [_ ->]. apply length_filter. }
  destruct (sweep_then_drain st i a ts _ Ho Hfirst Hts Hdr) as [Hts' Hdr'].
  by exists ts.
Qed.

Lemma queued_group_closed ls st t x :
  Past ls st → ends_flushed (appended t ls) →
  last (entries_of t (mLogQueue st)) = Some x → flushes (mValue x) = true.
Proof.
  intros [P1 _ _ _ _ _] Hend Hx.
  apply (proj1 (ends_flushed_last _) Hend (mValue x)).
  rewrite appended_queued_by, P1, entries_of_app. unfold values.
  by rewrite fmap_last, last_app, Hx.
Qed.

(** What the closing path invokes, put behind what was invoked before, is
    made of whole lines when every thread has finished its last line. *)
Lemma shutdown_lines ls st segs rest ts :
  Inv st → Past ls st → Lines st segs rest →
  (∀ t, ends_flushed (appended t ls)) →
  (mCurrentLog st = None ∨
   ∃ a ts', mCurrentThreadId st = Some a ∧ ts = a :: ts') →
  ∃ lines, invoked st ++ drain_order ts (mLogQueue st) = concat lines ∧
           Forall whole_line lines.
Proof.
  intros HI HP [L1 L2 L3 L4 L5] Hend Hfirst.
  pose proof (λ t x, queued_group_closed ls st t x HP (Hend t)) as Hclosed.
  assert (∃ tail, rest ++ drain_order ts (mLogQueue st) = concat tail ∧
                  Forall whole_line tail) as (tail & Htail & Hwhole).
  { destruct Hfirst as [Hcur|(a & ts' & Ho & ->)].
    - assert (rest = []) as ->; [|by apply groups_into_lines].
      destruct (last rest) as [x|] eqn:Hx; [|by apply last_None].
      pose proof (last_Some_elem_of _ _ Hx) as Hin.
      rewrite Forall_forall in L5. destruct (L5 x Hin) as [Ho Hquiet].
      assert (entries_of (mThreadId x) (mLogQueue st) = []) as Hdry.
      { apply filter_none. apply Forall_forall. intros e He Heq.
        apply (sched_dry _ _ _ (inv_sched _ HI) Hcur e He). congruence. }
      assert (entries_of (mThreadId x) rest = rest) as Hown.
      { apply own_entries. apply Forall_forall. intros e He.
        destruct (L5 e He) as [? _]. congruence. }
      assert (flushes (mValue x) = true); [|congruence].
      apply (proj1 (ends_flushed_last _) (Hend (mThreadId x)) (mValue x)).
      destruct HP as [P1 _ _ _ _ _].
      rewrite appended_queued_by, P1, L1, !entries_of_app, Hdry, Hown.
      rewrite app_nil_r. unfold values. by rewrite fmap_last, last_app, Hx.
    - destruct (groups_into_lines ts' (mLogQueue st) Hclosed)
        as (lines & Hlines & Hwhole).
      destruct (split_into_lines a (entries_of a (mLogQueue st)) rest)
        as (lines0 & Hlines0 & Hwhole0).
      + apply Forall_forall. by intros e [? _]%list_elem_of_filter.
      + eapply Forall_impl; [exact L5|]. intros e [? ?]. split; congruence.
      + intros x Hx. rewrite last_app in Hx.
        destruct (last (entries_of a (mLogQueue st))) as [y|] eqn:Hy.
        * injection Hx as <-. by apply (Hclosed a).
        * pose proof (last_Some_elem_of _ _ Hx) as Hin.
          rewrite Forall_forall in L5. destruct (L5 x Hin) as [_ Hquiet].
          assert (flushes (mValue x) = true); [|congruence].
          apply (proj1 (ends_flushed_last _) (Hend a) (mValue x)).
          destruct HP as [P1 _ _ _ _ _]. apply last_None in Hy.
          assert (entries_of a rest = rest) as Hown.
          { apply own_entries. apply Forall_forall. intros e He.
            destruct (L5 e He) as [? _]. congruence. }
          rewrite appended_queued_by, P1, L1, !entries_of_app, Hy, Hown.
          rewrite app_nil_r. unfold values.
          by rewrite fmap_last, last_app, Hx.
      + exists (lines0 ++ lines). split; [|by apply Forall_app].
        change (drain_order (a :: ts') (mLogQueue st))
          with (entries_of a (mLogQueue st) ++ drain_order ts' (mLogQueue st)).
        by rewrite concat_app, <- Hlines0, <- Hlines, app_assoc. }
  exists (segs ++ tail). split; [|by apply Forall_app].
  by rewrite concat_app, <- Htail, L1, app_assoc.
Qed.

(** The closing path, taken when every thread has finished its last line. *)
Lemma closing_writes_lines ls st :
  run ls init = Some st →
  mThread st = Woken → mClosing st = true →
  (∀ t, ends_flushed (appended t ls)) →
  ∃ st' lines,
    step Serialize st = Some st' ∧ mThread st' = Terminated ∧
    invoked st' = concat lines ∧ Forall whole_line lines ∧
    concat lines ≡ₚ queued_by ls ∧
    (∀ t, entries_of t (concat lines) = entries_of t (queued_by ls)) ∧
    sink_text st' =
      foldr String.append "" ((λ seg, rendering (values seg)) <$> lines).
Proof.
  intros Hrun Hpc Hcl Hend.
  assert (Inv st) as HI by (apply reachable_Inv; by exists ls).
  pose proof (reachable_Past ls st Hrun) as HP.
  destruct (past_lines _ _ HP) as (segs & rest & HL); [by rewrite Hpc|].
  set (st' := set_thread Terminated (set_mutex false (closing_path st))).
  assert (step Serialize st = Some st') as Hstep.
  { simpl. unfold serialize. by rewrite Hpc, Hcl. }
  destruct (closing_Past ls st HI HP) as [Q1 Q2 Q3 _ _ Q6].
  fold st' in Q1, Q2, Q3, Q6.
  assert (∃ ts, invoked st' = invoked st ++ drain_order ts (mLogQueue st) ∧
                mLogQueue st' = [] ∧
                (mCurrentLog st = None ∨
                 ∃ a ts', mCurrentThreadId st = Some a ∧ ts = a :: ts'))
    as (ts & Hinv & Hq & Hfirst).
  { destruct (mCurrentLog st) as [i|] eqn:Hcur.
    - destruct (sched_cursor _ _ _ (inv_sched _ HI) i Hcur)
        as (e & _ & Ho & _).
      destruct (close_outer_owner_first st i _ (inv_sched _ HI) Hcur Ho)
        as (ts & _ & D).
      exists (mThreadId e :: ts). unfold st', closing_path, flush.
      set (st2 := close_outer _ st) in *. clearbody st2.
      destruct D as [D1 D2 D3 D4 D5 D6 D7 D8 D9]. simpl.
      split; [done|]. split; [done|]. right. eauto.
    - destruct (close_outer_spec st (inv_sched _ HI)) as (ts & _ & D).
      exists ts. unfold st', closing_path, flush.
      set (st2 := close_outer _ st) in *. clearbody st2.
      destruct D as [D1 D2 D3 D4 D5 D6 D7 D8 D9]. simpl.
      split; [done|]. split; [done|]. by left. }
  destruct (shutdown_lines ls st segs rest ts HI HP HL Hend Hfirst)
    as (lines & Hlines & Hwhole).
  exists st', lines. rewrite Hq, app_nil_r in Q2.
  rewrite Q6, string_app_nil_r in Q3 by done.
  rewrite <- rendering_concat, <- Hlines, <- Hinv.
  split; [done|]. split; [done|]. split; [done|]. split; [done|].
  split; [done|]. split; [|done].
  intros t. rewrite (Q1 t). by rewrite Hq, app_nil_r.
Qed.

(** X9: if every thread has finished its last line when the closing path
    runs, the whole output is made of whole lines: the closures invoked, from
    the start of the program to its end, are whole lines of single threads
    one after the other, they are the entries appended, and the text on
    [std::cout] is those lines rendered in that order. *)
Theorem shutdown_writes_whole_lines ls st :
  run ls init = Some st →
  mThread st = Woken → mClosing st = true →
  (∀ t, ends_flushed (appended t ls)) →
  ∃ st' lines,
    step Serialize st = Some st' ∧ mThread st' = Terminated ∧
    invoked st' = concat lines ∧ Forall whole_line lines ∧
    concat lines ≡ₚ queued_by ls ∧
    sink_text st' =
      foldr String.append "" ((λ seg, rendering (values seg)) <$> lines).
Proof.
  intros Hrun Hpc Hcl Hend.
  destruct (closing_writes_lines ls st Hrun Hpc Hcl Hend)
    as (st' & lines & ? & ? & ? & ? & ? & _ & ?).
  by exists st', lines.
Qed.

(** ** A single producer *)

(** X10: with a single producer the log is complete whenever the serialize
    thread has gone back to sleep: if one thread has made all the appends and
    the serialize thread is blocked, before shutdown, then nothing is queued,
    the closures invoked are the appends in their order, and the text on
    [std::cout] followed by the buffer is what the thread has streamed, in the
    order it streamed it. *)
Theorem single_producer_log_is_complete ls st T :
  run ls init = Some st →
  Forall (λ e, mThreadId e = T) (queued_by ls) →
  mClosing st = false → step Serialize st = None →
  mLogQueue st = [] ∧ invoked st = queued_by ls ∧
  sink_text st +:+ mStream st = rendering (values (queued_by ls)).
Proof.
  intros Hrun Hsingle Hcl Hstuck.
  assert (Inv st) as HI by (apply reachable_Inv; by exists ls).
  destruct (blocked_in_wait st HI Hcl Hstuck) as [Hpc Hcur].
  destruct (reachable_Past ls st Hrun) as [P1 P2 P3 P4 P5 P6].
  assert (∀ e, e ∈ invoked st ++ mLogQueue st → mThreadId e = T) as Hall.
  { intros e He. rewrite P2 in He. rewrite Forall_forall in Hsingle. auto. }
  assert (mLogQueue st = []) as Hq.
  { destruct (mLogQueue st) as [|e q] eqn:Hq; [done|]. exfalso.
    assert (e ∈ mLogQueue st) as He by (rewrite Hq; by left).
    destruct (mCurrentThreadId st) as [a|] eqn:Ho.
    - assert (a = T) as ->.
      { assert (mThread st ≠ Terminated) as Hne by by rewrite Hpc.
        pose proof (P5 Hne a eq_refl) as Hprod.
        destruct (entries_of a (queued_by ls)) as [|e' es] eqn:He'; [done|].
        assert (e' ∈ entries_of a (queued_by ls)) as Hin
          by (rewrite He'; by left).
        apply list_elem_of_filter in Hin as [<- Hin].
        rewrite Forall_forall in Hsingle. auto. }
      apply (sched_dry _ _ _ (inv_sched _ HI) Hcur e He).
      rewrite Ho. f_equal. symmetry. apply Hall.
      apply elem_of_app. right. by left.
    - destruct (sched_unowned _ _ _ (inv_sched _ HI) Ho) as [Hq' _].
      congruence. }
  assert (invoked st = queued_by ls) as Hinv.
  { specialize (P1 T). rewrite Hq, app_nil_r in P1.
    rewrite (own_entries T (queued_by ls) Hsingle) in P1.
    rewrite own_entries in P1; [done|].
    apply Forall_forall. intros e He. apply Hall.
    apply elem_of_app. by left. }
  by rewrite <- Hinv.
Qed.

(** ** The queue keeps the order of arrival *)

Lemma queued_by_serialize n : queued_by (replicate n Serialize) = [].
Proof. by induction n. Qed.

(** A step leaves the queue as it was, one entry aside: a producer adds its
    entry at the tail, the serialize thread erases entries. *)
Lemma step_queue_order l st st' :
  Inv st → step l st = Some st' →
  mLogQueue st' `sublist_of` mLogQueue st ++ queued_by [l].
Proof.
  intros HI. destruct l as [id value| |]; simpl.
  - destruct (mLogMutex st); [done|]. intros [= <-]. unfold write. simpl.
    destruct (mCurrentThreadId st) as [o|]; [|done].
    destruct (decide (o = id)); [|done]. by destruct (mCurrentLog st).
  - destruct (mLogMutex st); [done|]. intros [= <-]. simpl.
    by rewrite app_nil_r.
  - rewrite app_nil_r. unfold serialize. destruct (mThread st) eqn:Hpc.
    + destruct (mLogMutex st); [done|]. destruct (wake_pred st); [|done].
      by intros [= <-].
    + destruct (mClosing st).
      * intros [= <-]. destruct (close_outer_spec st (inv_sched _ HI))
          as (ts & _ & D). unfold closing_path.
        set (st2 := close_outer _ st) in *. clearbody st2. simpl.
        rewrite (dr_queue _ _ _ D). apply sublist_nil_l.
      * intros Hit.
        apply iteration_cases in Hit as (i & e & st1 & _ & _ & Hst' & Hcase).
        assert (mLogQueue st' = delete i (mLogQueue st)) as ->
          by (destruct Hst' as [-> | ->];
              by destruct Hcase as [[_ ->]|[_ ->]]).
        apply sublist_delete.
    + intros Hit.
      apply iteration_cases in Hit as (i & e & st1 & _ & _ & Hst' & Hcase).
      assert (mLogQueue st' = delete i (mLogQueue st)) as ->
        by (destruct Hst' as [-> | ->]; by destruct Hcase as [[_ ->]|[_ ->]]).
      apply sublist_delete.
    + done.
Qed.

Lemma run_queue_order ls : ∀ ls0 st0 st,
  Inv st0 → mLogQueue st0 `sublist_of` queued_by ls0 →
  run ls st0 = Some st → mLogQueue st `sublist_of` queued_by (ls0 ++ ls).
Proof.
  induction ls as [|l ls IH]; intros ls0 st0 st HI Hsub; simpl.
  - intros [= <-]. by rewrite app_nil_r.
  - destruct (step l st0) as [st1|] eqn:Hstep; [|done]. simpl. intros Hrun.
    rewrite (assoc_L (++) ls0 [l] ls : ls0 ++ l :: ls = (ls0 ++ [l]) ++ ls).
    eapply IH; [by eapply step_Inv| |done].
    rewrite queued_by_snoc.
    etrans; [by eapply step_queue_order|]. by apply sublist_app.
Qed.

(** X11: the queue is always in the order of arrival: in every state the
    program reaches, the entries queued are entries appended, in the order in
    which they were appended.  The serialize thread takes entries out of the
    queue and never moves one, so the head of the queue, to whose thread the
    floor goes after a flush, is the entry that has waited longest. *)
Theorem queue_keeps_arrival_order ls st :
  run ls init = Some st → mLogQueue st `sublist_of` queued_by ls.
Proof.
  apply (run_queue_order ls [] init st init_Inv). apply sublist_nil_l.
Qed.

(** ** The end of the program *)

(** X12: once the destructor has set [mClosing] nothing stops the shutdown,
    and nothing appended is lost in it: from any state the program reaches
    with [mClosing] set and the serialize thread still alive, at most two
    steps of that thread end it, and then the queue and the buffer are empty,
    the closures invoked are the entries appended since the start of the
    program, and the text on [std::cout] is what they rendered. *)
Theorem shutdown_completes_the_log ls st :
  run ls init = Some st →
  mClosing st = true → mThread st ≠ Terminated →
  ∃ n st', n ≤ 2 ∧ run (replicate n Serialize) st = Some st' ∧
    mThread st' = Terminated ∧ mLogQueue st' = [] ∧ mStream st' = "" ∧
    invoked st' ≡ₚ queued_by ls ∧
    sink_text st' = rendering (values (invoked st')).
Proof.
  intros Hrun Hcl Hlive.
  assert (Inv st) as HI by (apply reachable_Inv; by exists ls).
  assert (∃ n st', n ≤ 2 ∧ run (replicate n Serialize) st = Some st' ∧
            mThread st' = Terminated ∧ mLogQueue st' = [])
    as (n & st' & Hn & Hrun' & Ht & Hq).
  { assert (∀ st1, Inv st1 → mThread st1 = Woken → mClosing st1 = true →
              ∃ st', serialize st1 = Some st' ∧
                mThread st' = Terminated ∧ mLogQueue st' = []) as Hlast.
    { intros st1 HI1 Hpc1 Hcl1. unfold serialize. rewrite Hpc1, Hcl1.
      eexists. split; [done|]. split; [done|].
      destruct (close_outer_spec st1 (inv_sched _ HI1)) as (ts & _ & D).
      unfold closing_path.
      set (st2 := close_outer _ st1) in *. clearbody st2. simpl.
      exact (dr_queue _ _ _ D). }
    destruct (mThread st) eqn:Hpc; try done.
    - pose proof (inv_mutex _ HI) as Hm. rewrite Hpc in Hm. simpl in Hm.
      assert (serialize st = Some (set_thread Woken (set_mutex true st)))
        as Hstep1 by (unfold serialize, wake_pred; by rewrite Hpc, Hm, Hcl).
      destruct (Hlast (set_thread Woken (set_mutex true st)))
        as (st' & Hstep & Hrest); [by eapply serialize_Inv|done|done|].
      exists 2, st'. split; [lia|]. split; [|done]. simpl.
      unfold step. rewrite Hstep1. simpl. by rewrite Hstep.
    - destruct (Hlast st HI Hpc Hcl) as (st' & Hstep & Hrest).
      exists 1, st'. split; [lia|]. split; [|done]. simpl.
      unfold step. by rewrite Hstep.
    - destruct (inv_draining _ HI Hpc) as [Hcl' _]. congruence. }
  exists n, st'. split; [done|]. split; [done|]. split; [done|].
  split; [done|].
  pose proof (run_Past _ ls st st' HI (reachable_Past ls st Hrun) Hrun')
    as [_ Hperm Htext _ _ Hdone].
  rewrite Hq, app_nil_r in Hperm. rewrite (Hdone Ht) in Htext.
  rewrite string_app_nil_r in Htext.
  unfold queued_by in Hperm. rewrite omap_app in Hperm.
  fold (queued_by ls) in Hperm. fold (queued_by (replicate n Serialize)) in Hperm.
  rewrite queued_by_serialize, app_nil_r in Hperm.
  by rewrite (Hdone Ht).
Qed.

(** ** The serialize thread goes back to sleep *)

(** The step that ends a pass leaves the cursor at the end of the queue. *)
Lemma pass_end_cursor st st1 :
  Inv st → mLogMutex st = true → mClosing st = false →
  serialize st = Some st1 → mLogMutex st1 = false →
  mThread st1 = Waiting ∧ mCurrentLog st1 = None ∧ mClosing st1 = false.
Proof.
  intros HI Hheld Hcl Hstep Hfree.
  pose proof (serialize_Inv _ _ HI Hstep) as [Hs1 _ _ _ _ _].
  assert (iteration st = Some st1) as Hit.
  { unfold serialize in Hstep. destruct (mThread st); try done.
    - by rewrite Hheld in Hstep.
    - by rewrite Hcl in Hstep. }
  clear Hstep. unfold iteration in Hit.
  destruct (mCurrentLog st) as [i|] eqn:Hcur;
    [|unfold do_body in Hit; by rewrite Hcur in Hit].
  destruct (mLogQueue st !! i) as [e|] eqn:He;
    [|unfold do_body in Hit; rewrite Hcur in Hit; simpl in Hit;
      by rewrite He in Hit].
  destruct (mFlushed (mFunctor e st)) eqn:Hfl.
  - rewrite (do_body_flush st i e) in Hit by done. simpl in Hit.
    case_bool_decide as Hq; injection Hit as <-; simpl in *;
      [by rewrite Hheld in Hfree|].
    split; [done|]. split; [|done].
    by rewrite Hq.
  - rewrite (do_body_keep st i e) in Hit by done. simpl in Hit.
    destruct (loop_cond (after_keep i e st)) eqn:Hlc; injection Hit as <-;
      simpl in *; [by rewrite Hheld in Hfree|].
    split; [done|]. split; [|done].
    destruct (find_if _ _ _) as [j|] eqn:Hj; [exfalso|done].
    destruct (sched_cursor _ _ _ Hs1 j eq_refl) as (e' & He' & Ho & _).
    unfold loop_cond, deref in Hlc. simpl in Hlc. rewrite Hj in Hlc.
    simpl in Hlc. rewrite He' in Hlc. by rewrite bool_decide_true in Hlc.
Qed.

Lemma iteration_keeps_closing st st1 :
  iteration st = Some st1 → mClosing st1 = mClosing st.
Proof.
  intros Hit.
  apply iteration_cases in Hit as (i & e & st0 & _ & _ & Hst1 & Hcase).
  destruct Hst1 as [-> | ->]; by destruct Hcase as [[_ ->]|[_ ->]].
Qed.

Lemma pass_returns_to_wait k : ∀ st,
  Inv st → mLogMutex st = true → mClosing st = false →
  length (mLogQueue st) ≤ k →
  ∃ n st', n ≤ S k ∧ run (replicate n Serialize) st = Some st' ∧
           mThread st' = Waiting ∧ mCurrentLog st' = None ∧
           mClosing st' = false.
Proof.
  induction k as [|k IH]; intros st HI Hheld Hcl Hlen.
  all: assert (holds_mutex (mThread st) = true) as Hpc
         by (by rewrite <- (inv_mutex _ HI)).
  all: destruct (serialize_progress st HI Hpc) as [st1 Hstep].
  all: destruct (mLogMutex st1) eqn:Hheld1;
    [|exists 1, st1; split; [lia|]; split;
      [simpl; unfold step; by rewrite Hstep
      |by apply (pass_end_cursor st)]].
  all: pose proof (pass_step_shortens st st1 HI Hheld Hstep Hheld1).
  - lia.
  - destruct (IH st1) as (n & st' & Hn & Hrun & Hrest);
      [by eapply serialize_Inv|done| |lia|].
    { unfold serialize in Hstep. destruct (mThread st); try done.
      - rewrite Hcl in Hstep. by rewrite (iteration_keeps_closing st).
      - by rewrite (iteration_keeps_closing st). }
    exists (S n), st'. split; [lia|]. split; [|done].
    simpl. unfold step. by rewrite Hstep.
Qed.

(** X13: the serialize thread does not spin: from any state the program
    reaches before shutdown, if the producers append nothing more, at most
    two steps more than there are queued entries bring the thread back into
    [wait], blocked, and the entries that are then still queued all belong
    to threads other than the owner of the floor. *)
Theorem worker_goes_back_to_sleep ls st :
  run ls init = Some st → mClosing st = false →
  ∃ n st', n ≤ 2 + length (mLogQueue st) ∧
    run (replicate n Serialize) st = Some st' ∧
    mThread st' = Waiting ∧ step Serialize st' = None ∧
    ∀ e, e ∈ mLogQueue st' → mCurrentThreadId st' ≠ Some (mThreadId e).
Proof.
  intros Hrun Hcl.
  assert (Inv st) as HI by (apply reachable_Inv; by exists ls).
  assert (∃ n st', n ≤ 2 + length (mLogQueue st) ∧
            run (replicate n Serialize) st = Some st' ∧
            mThread st' = Waiting ∧ mCurrentLog st' = None ∧
            mClosing st' = false) as (n & st' & Hn & Hrun' & Hpc' & Hcur' & Hcl').
  { destruct (mLogMutex st) eqn:Hm.
    - destruct (pass_returns_to_wait (length (mLogQueue st)) st)
        as (n & st' & Hn & Hrest); [done..|].
      exists n, st'. split; [lia|done].
    - assert (mThread st = Waiting) as Hpc.
      { pose proof (inv_mutex _ HI) as Hm'. rewrite Hm in Hm'.
        destruct (mThread st) eqn:Hpc; try done.
        pose proof (inv_terminated _ HI Hpc). congruence. }
      destruct (mCurrentLog st) as [i|] eqn:Hcur.
      + set (st1 := set_thread Woken (set_mutex true st)).
        assert (serialize st = Some st1) as Hstep1.
        { unfold serialize, wake_pred. rewrite Hpc, Hm, Hcl, Hcur. done. }
        destruct (pass_returns_to_wait (length (mLogQueue st)) st1)
          as (n & st' & Hn & Hrun' & Hrest);
          [by eapply serialize_Inv|done|done|done|].
        exists (S n), st'. split; [lia|]. split; [|done].
        simpl. unfold step. by rewrite Hstep1.
      + exists 0, st. split; [lia|]. done. }
  exists n, st'. split; [done|]. split; [done|]. split; [done|].
  assert (Inv st') as HI' by (by eapply run_Inv).
  split.
  - simpl. unfold serialize, wake_pred. rewrite Hpc', Hcl', Hcur'.
    by destruct (mLogMutex st').
  - intros e He. by apply (sched_dry _ _ _ (inv_sched _ HI') Hcur').
Qed.

(** ** The lines of a thread, and [main] *)

Lemma run_app ls1 ls2 st :
  run (ls1 ++ ls2) st = st' ← run ls1 st; run ls2 st'.
Proof.
  revert st. induction ls1 as [|l ls1 IH]; intros st; [done|].
  simpl. destruct (step l st) as [st1|]; [|done]. simpl. apply IH.
Qed.

Lemma appended_app t ls1 ls2 :
  appended t (ls1 ++ ls2) = appended t ls1 ++ appended t ls2.
Proof. unfold appended. by rewrite omap_app. Qed.

Lemma entries_of_appended t ls :
  entries_of t (queued_by ls) = mkEntry t <$> appended t ls.
Proof.
  induction ls as [|l ls IH]; [done|].
  destruct l as [id value| |]; simpl; try done.
  unfold appended, queued_by, entries_of in *. simpl.
  destruct (decide (id = t)) as [->|Hne].
  - rewrite filter_cons_True by done. simpl. by rewrite IH.
  - by rewrite filter_cons_False.
Qed.

(** A whole line has one writer. *)
Lemma whole_line_writer seg :
  whole_line seg →
  ∃ f, f ∈ seg ∧ ∀ t, written_by t seg ↔ mThreadId f = t.
Proof.
  intros (body & f & -> & Hf & Hbody). exists f. split.
  - apply elem_of_app. right. by left.
  - intros t. unfold written_by. rewrite Forall_app, Forall_singleton. split.
    + by intros [_ ?].
    + intros <-. split; [|done]. eapply Forall_impl; [exact Hbody|].
      by intros e [? _].
Qed.

(** The entries of a thread among whole lines are the lines it wrote. *)
Lemma entries_of_lines t lines :
  Forall whole_line lines →
  entries_of t (concat lines) = concat (filter (written_by t) lines).
Proof.
  induction 1 as [|seg lines Hseg _ IH]; [done|].
  simpl. rewrite entries_of_app, IH.
  destruct (decide (written_by t seg)) as [Hw|Hw].
  - rewrite filter_cons_True by done. simpl. by rewrite own_entries.
  - rewrite filter_cons_False by done.
    destruct Hseg as (body & f & -> & Hf & Hbody).
    assert (mThreadId f ≠ t) as Hne.
    { intros <-. apply Hw. apply Forall_app. split; [|by apply Forall_singleton].
      eapply Forall_impl; [exact Hbody|]. by intros e [? _]. }
    unfold entries_of at 1. rewrite filter_none; [done|].
    apply Forall_app. split; [|by apply Forall_singleton].
    eapply Forall_impl; [exact Hbody|]. intros e [? _]. congruence.
Qed.

(** Where the first flushing entry of a sequence stands. *)
Lemma first_flush_unique (l1 l2 r1 r2 : list LogEntry) x y :
  Forall (λ e, flushes (mValue e) = false) l1 →
  Forall (λ e, flushes (mValue e) = false) l2 →
  flushes (mValue x) = true → flushes (mValue y) = true →
  l1 ++ x :: r1 = l2 ++ y :: r2 → l1 = l2 ∧ x = y ∧ r1 = r2.
Proof.
  intros H1. revert l2. induction H1 as [|a l1 Ha _ IH]; intros l2 H2 Hx Hy.
  - destruct H2 as [|b l2 Hb _]; simpl; intros [= -> ->]; [done|congruence].
  - destruct H2 as [|b l2 Hb H2]; simpl; intros [= -> Heq]; [congruence|].
    destruct (IH l2 H2 Hx Hy Heq) as (-> & -> & ->). done.
Qed.

(** A sequence of entries is cut into whole lines in one way only. *)
Lemma lines_unique (A : list (list LogEntry)) : ∀ B,
  Forall whole_line A → Forall whole_line B → concat A = concat B → A = B.
Proof.
  induction A as [|a A IH]; intros B HA HB.
  - destruct HB as [|b B (body & f & -> & _) _]; [done|].
    simpl. rewrite <- app_assoc. intros Heq. symmetry in Heq.
    by apply app_nil in Heq as [_ ?].
  - apply Forall_cons in HA as [(body & f & -> & Hf & Hbody) HA].
    destruct HB as [|b B (body' & f' & -> & Hf' & Hbody') HB].
    + simpl. rewrite <- app_assoc. intros Heq.
      by apply app_nil in Heq as [_ ?].
    + simpl. rewrite <- !app_assoc. simpl. intros Heq.
      apply first_flush_unique in Heq as (-> & -> & Heq); try done.
      * by rewrite (IH B HA HB Heq).
      * eapply Forall_impl; [exact Hbody|]. by intros e [_ ?].
      * eapply Forall_impl; [exact Hbody'|]. by intros e [_ ?].
Qed.

(** A list whose elements fall under exactly one of three predicates is made
    of the three sublists they select. *)
Lemma three_way_split {A} (P1 P2 P3 : A → Prop)
    `{∀ x, Decision (P1 x)} `{∀ x, Decision (P2 x)} `{∀ x, Decision (P3 x)}
    (l : list A) :
  Forall (λ x, (P1 x ∧ ¬ P2 x ∧ ¬ P3 x) ∨ (¬ P1 x ∧ P2 x ∧ ¬ P3 x) ∨
               (¬ P1 x ∧ ¬ P2 x ∧ P3 x)) l →
  l ≡ₚ filter P1 l ++ filter P2 l ++ filter P3 l.
Proof.
  induction 1 as [|x l Hx _ IH]; [done|].
  destruct Hx as [(? & ? & ?)|[(? & ? & ?)|(? & ? & ?)]].
  - rewrite (filter_cons_True P1), (filter_cons_False P2),
      (filter_cons_False P3) by done. simpl. by rewrite <- IH.
  - rewrite (filter_cons_False P1), (filter_cons_True P2),
      (filter_cons_False P3) by done.
    simpl. rewrite <- Permutation_middle. by rewrite <- IH.
  - rewrite (filter_cons_False P1), (filter_cons_False P2),
      (filter_cons_True P3) by done.
    rewrite app_assoc, <- Permutation_middle, <- app_assoc. by rewrite <- IH.
Qed.

(** The lines a thread wrote among whole lines, when the entries of the
    thread are known. *)
Lemma lines_of_thread t lines mine :
  Forall whole_line lines → Forall whole_line mine →
  entries_of t (concat lines) = concat mine →
  filter (written_by t) lines = mine.
Proof.
  intros Hlines Hmine Heq. apply lines_unique; [|done|].
  - apply Forall_forall. intros seg [_ Hseg]%list_elem_of_filter.
    rewrite Forall_forall in Hlines. by apply Hlines.
  - by rewrite <- entries_of_lines.
Qed.

Lemma main_chains_end_flushed m t1 t2 body t :
  main_body m t1 t2 body → ends_flushed (appended t body).
Proof.
  intros [Hids Hm H1 H2 Hoth].
  destruct (decide (t = m)) as [->|Hnm];
    [rewrite Hm; right; by exists [Text "abc"; Text "42"], Endl|].
  destruct (decide (t = t1)) as [->|Hn1];
    [rewrite H1; right;
     by exists [Text "t1 1"; Text "1"; Endl; Text "t1 2"; Text "2"], Endl|].
  destruct (decide (t = t2)) as [->|Hn2];
    [rewrite H2; right;
     by exists [Text "t2 1"; Text "3"; Endl; Text "t2 2"; Text "4"], Endl|].
  left. apply Hoth. rewrite !not_elem_of_cons.
  split_and!; [done..|]. apply not_elem_of_nil.
Qed.

Lemma elem_of_concat {A} (x : A) seg lines :
  x ∈ seg → seg ∈ lines → x ∈ concat lines.
Proof.
  intros Hx. induction lines as [|l lines IH]; intros Hseg.
  - by apply elem_of_nil in Hseg.
  - simpl. apply elem_of_app.
    apply elem_of_cons in Hseg as [<-|Hseg]; [by left|right; by apply IH].
Qed.

Lemma chain_line t vs f :
  Forall (λ v, flushes v = false) vs → flushes f = true →
  whole_line (mkEntry t <$> vs ++ [f]).
Proof.
  intros Hvs Hf. exists (mkEntry t <$> vs), (mkEntry t f).
  split; [by rewrite fmap_app|]. split; [done|].
  apply Forall_fmap. eapply Forall_impl; [exact Hvs|]. by intros v ?.
Qed.

(** X15: [main] prints its five lines, whole: whatever the interleaving of
    the three threads and of the serialize thread, when the destructor of
    [log] has returned the text on [std::cout] is made of the line of [main]
    and the two lines of each of [t1] and [t2], each in one piece, the lines
    of one thread in the order in which it streamed them. *)
Theorem main_prints_its_lines_whole m t1 t2 body st :
  main_body m t1 t2 body →
  run (body ++ main_end) init = Some st →
  mThread st = Terminated ∧
  ∃ out, sink_text st = foldr String.append "" out ∧
         out ≡ₚ main_line :: t1_lines ++ t2_lines ∧
         t1_lines `sublist_of` out ∧ t2_lines `sublist_of` out.
Proof.
  intros Hmain Hrun. pose proof Hmain as [Hids Hm H1 H2 Hoth].
  rewrite run_app in Hrun.
  destruct (run body init) as [st0|] eqn:Hbody; [|done].
  simpl in Hrun.
  assert (Inv st0) as HI0 by (apply reachable_Inv; by exists body).
  destruct (mLogMutex st0) eqn:Hm0; [done|]. simpl in Hrun.
  destruct (serialize (close st0)) as [st1|] eqn:Hwake; [|done].
  simpl in Hrun.
  assert (mThread st0 = Waiting) as Hpc0.
  { pose proof (inv_mutex _ HI0) as Hmx. rewrite Hm0 in Hmx.
    destruct (mThread st0) eqn:Hpc; try done.
    unfold serialize in Hwake. simpl in Hwake. by rewrite Hpc in Hwake. }
  assert (st1 = set_thread Woken (set_mutex true (close st0))) as Hst1.
  { unfold serialize in Hwake. simpl in Hwake. rewrite Hpc0, Hm0 in Hwake.
    by injection Hwake as <-. }
  assert (run (body ++ [Close; Serialize]) init = Some st1) as Hrun1.
  { rewrite run_app, Hbody. simpl. rewrite Hm0. simpl. by rewrite Hwake. }
  destruct (closing_writes_lines _ st1 Hrun1)
    as (st' & lines & Hstep & Hpc' & Hinv & Hwhole & Hperm & Hmine & Htext);
    [by rewrite Hst1|by rewrite Hst1|..].
  { intros t. rewrite appended_app. simpl. rewrite app_nil_r.
    by apply (main_chains_end_flushed m t1 t2). }
  simpl in Hstep. rewrite Hstep in Hrun. injection Hrun as <-.
  split; [done|].
  assert (∀ t, entries_of t (concat lines) = mkEntry t <$> appended t body)
    as Hof.
  { intros t. rewrite Hmine, entries_of_appended, appended_app. simpl.
    by rewrite app_nil_r. }
  assert (m ≠ t1 ∧ m ≠ t2 ∧ t1 ≠ t2) as (Hm1 & Hm2 & H12).
  { apply NoDup_cons in Hids as [Hm' Hids].
    apply NoDup_cons in Hids as [H1' _].
    rewrite !not_elem_of_cons in Hm'. rewrite !not_elem_of_cons in H1'.
    destruct Hm' as (? & ? & _), H1' as (? & _). done. }
  assert (filter (written_by m) lines = [mkEntry m <$> main_chain]) as Em.
  { apply lines_of_thread; [done| |by rewrite Hof, Hm].
    apply Forall_singleton.
    by apply (chain_line m [Text "abc"; Text "42"] Endl); repeat constructor. }
  assert (filter (written_by t1) lines =
            [mkEntry t1 <$> [Text "t1 1"; Text "1"; Endl];
             mkEntry t1 <$> [Text "t1 2"; Text "2"; Endl]]) as E1.
  { apply lines_of_thread; [done| |by rewrite Hof, H1].
    apply Forall_cons_2; [|apply Forall_singleton].
    - by apply (chain_line t1 [Text "t1 1"; Text "1"] Endl);
        repeat constructor.
    - by apply (chain_line t1 [Text "t1 2"; Text "2"] Endl);
        repeat constructor. }
  assert (filter (written_by t2) lines =
            [mkEntry t2 <$> [Text "t2 1"; Text "3"; Endl];
             mkEntry t2 <$> [Text "t2 2"; Text "4"; Endl]]) as E2.
  { apply lines_of_thread; [done| |by rewrite Hof, H2].
    apply Forall_cons_2; [|apply Forall_singleton].
    - by apply (chain_line t2 [Text "t2 1"; Text "3"] Endl);
        repeat constructor.
    - by apply (chain_line t2 [Text "t2 2"; Text "4"] Endl);
        repeat constructor. }
  assert (lines ≡ₚ filter (written_by m) lines ++
                   filter (written_by t1) lines ++
                   filter (written_by t2) lines) as Hsplit.
  { apply three_way_split. apply Forall_forall. intros seg Hseg.
    rewrite Forall_forall in Hwhole.
    destruct (whole_line_writer seg (Hwhole seg Hseg)) as (f & Hf & Hw).
    assert (f ∈ mkEntry (mThreadId f) <$> appended (mThreadId f) body) as Hin.
    { rewrite <- Hof. apply list_elem_of_filter. split; [done|].
      by apply (elem_of_concat f seg). }
    rewrite !Hw.
    destruct (decide (mThreadId f = m)) as [Hfm|Hfm]; [left; rewrite Hfm; split_and!; (done || by apply not_eq_sym)|].
    destruct (decide (mThreadId f = t1)) as [Hf1|Hf1];
      [right; left; rewrite Hf1; split_and!; (done || by apply not_eq_sym)|].
    destruct (decide (mThreadId f = t2)) as [Hf2|Hf2];
      [right; right; rewrite Hf2; split_and!; (done || by apply not_eq_sym)|].
    rewrite Hoth in Hin; [by apply elem_of_nil in Hin|].
    rewrite !not_elem_of_cons. split_and!; [done..|]. apply not_elem_of_nil. }
  exists (render <$> lines). split; [done|]. split; [|split].
  - rewrite Hsplit, Em, E1, E2. done.
  - change t1_lines with
      (render <$> [mkEntry t1 <$> [Text "t1 1"; Text "1"; Endl];
                   mkEntry t1 <$> [Text "t1 2"; Text "2"; Endl]]).
    rewrite <- E1. apply fmap_sublist, sublist_filter.
  - change t2_lines with
      (render <$> [mkEntry t2 <$> [Text "t2 1"; Text "3"; Endl];
                   mkEntry t2 <$> [Text "t2 2"; Text "4"; Endl]]).
    rewrite <- E2. apply fmap_sublist, sublist_filter.
Qed.

(** ** The dereference of line 163 *)

(** X16: the loop never dereferences the end iterator: in every state the
    program reaches with the serialize thread about to run the body of the
    [do ... while], [mCurrentLog] designates a node of the queue, that node
    is an entry of the owner of the floor, [mFlushed] is clear, and the body
    runs to its end. *)
Theorem loop_never_dereferences_end ls st :
  run ls init = Some st → in_loop st →
  ∃ i e st', mCurrentLog st = Some i ∧ mLogQueue st !! i = Some e ∧
             mCurrentThreadId st = Some (mThreadId e) ∧
             mFlushed st = false ∧ step Serialize st = Some st'.
Proof.
  intros Hrun [Hpc Hcl].
  assert (Inv st) as HI by (apply reachable_Inv; by exists ls).
  assert (∃ i, mCurrentLog st = Some i) as [i Hcur].
  { destruct (mCurrentLog st) as [i|] eqn:Hcur; [by exists i|].
    destruct Hpc as [Hpc|Hpc].
    - pose proof (inv_woken _ HI Hpc) as Hw. unfold wake_pred in Hw.
      by rewrite Hcl, Hcur in Hw.
    - by destruct (inv_draining _ HI Hpc) as [_ ?]. }
  destruct (sched_cursor _ _ _ (inv_sched _ HI) i Hcur) as (e & He & Ho & _).
  destruct (serialize_progress st HI) as [st' Hstep];
    [by destruct Hpc as [-> | ->]|].
  exists i, e, st'. split_and!; try done. apply (inv_flushed _ HI).
Qed.

(** ** Waking the serialize thread *)









(** ** The further properties at work *)

Lemma every_entry_invoked_or_queued_witness :
  run whole_run init = Some after_whole_run ∧
  invoked after_whole_run ++ mLogQueue after_whole_run ≡ₚ queued_by whole_run.
Proof.
  split; [reflexivity|].
  apply (every_entry_invoked_or_queued whole_run after_whole_run).
  reflexivity.
Defined.

Lemma thread_order_is_kept_witness :
  run midway_run init = Some midway ∧
  entries_of 1 (invoked midway) ++ entries_of 1 (mLogQueue midway)
    = entries_of 1 (queued_by midway_run).
Proof.
  split; [reflexivity|].
  apply (thread_order_is_kept midway_run midway 1). reflexivity.
Defined.

Lemma sink_and_buffer_hold_invoked_text_witness :
  run whole_run init = Some after_whole_run ∧
  sink_text after_whole_run +:+ mStream after_whole_run
    = rendering (values (invoked after_whole_run)).
Proof.
  split; [reflexivity|].
  apply (sink_and_buffer_hold_invoked_text whole_run after_whole_run).
  reflexivity.
Defined.

Lemma drain_pass_ends_witness :
  run midway_run init = Some midway ∧ mLogMutex midway = true ∧
  ∃ n st', n ≤ S (length (mLogQueue midway)) ∧
           run (replicate n Serialize) midway = Some st' ∧
           mLogMutex st' = false.
Proof.
  split; [reflexivity|]. split; [reflexivity|].
  apply (drain_pass_ends midway_run midway); reflexivity.
Defined.

Lemma floor_passes_only_with_a_write_witness :
  run midway_run init = Some midway ∧ mClosing midway = false ∧
  step Serialize midway = Some past_flush ∧
  mCurrentThreadId midway = Some 1 ∧ mCurrentThreadId past_flush ≠ Some 1 ∧
  Serialize = Serialize ∧ in_loop midway ∧
  ∃ s, cout past_flush = cout midway ++ [s].
Proof.
  split; [reflexivity|]. split; [reflexivity|]. split; [reflexivity|].
  split; [reflexivity|]. split; [discriminate|].
  apply (floor_passes_only_with_a_write midway_run midway Serialize
           past_flush 1);
    [reflexivity|reflexivity|reflexivity|reflexivity|discriminate].
Defined.

Lemma one_write_per_flushing_closure_witness :
  run (midway_run ++ [Serialize]) init = Some past_flush ∧
  mThread past_flush ≠ Terminated ∧
  length (cout past_flush) = length (flushing (invoked past_flush)).
Proof.
  split; [reflexivity|]. split; [discriminate|].
  apply (one_write_per_flushing_closure (midway_run ++ [Serialize])
           past_flush); [reflexivity|discriminate].
Defined.

Lemma free_floor_means_all_written_witness :
  run line_run init = Some line_written ∧
  mCurrentThreadId line_written = None ∧
  mLogQueue line_written = [] ∧ mStream line_written = "" ∧
  invoked line_written ≡ₚ queued_by line_run ∧
  sink_text line_written = rendering (values (invoked line_written)).
Proof.
  split; [reflexivity|]. split; [reflexivity|].
  apply (free_floor_means_all_written line_run line_written); reflexivity.
Defined.

Lemma blocked_worker_has_no_work_of_the_owner_witness :
  run waiting_run init = Some others_waiting ∧
  mClosing others_waiting = false ∧ step Serialize others_waiting = None ∧
  mThread others_waiting = Waiting ∧
  ∀ e, e ∈ mLogQueue others_waiting →
       ∃ a, mCurrentThreadId others_waiting = Some a ∧ a ≠ mThreadId e.
Proof.
  split; [reflexivity|]. split; [reflexivity|]. split; [reflexivity|].
  apply (blocked_worker_has_no_work_of_the_owner waiting_run others_waiting);
    reflexivity.
Defined.

Lemma last_lines_run_ends_flushed t : ends_flushed (appended t last_lines_run).
Proof.
  unfold last_lines_run, appended. simpl.
  repeat case_decide; simplify_eq; simpl.
  - right. by exists [Text "a"; Text "b"], Endl.
  - right. by exists [Text "x"], Endl.
  - right. by exists [], Endl.
  - by left.
Qed.

Lemma shutdown_writes_whole_lines_witness :
  run last_lines_run init = Some at_shutdown ∧
  mThread at_shutdown = Woken ∧ mClosing at_shutdown = true ∧
  (∀ t, ends_flushed (appended t last_lines_run)) ∧
  ∃ st' lines,
    step Serialize at_shutdown = Some st' ∧ mThread st' = Terminated ∧
    invoked st' = concat lines ∧ Forall whole_line lines ∧
    concat lines ≡ₚ queued_by last_lines_run ∧
    sink_text st' =
      foldr String.append "" ((λ seg, rendering (values seg)) <$> lines).
Proof.
  split; [reflexivity|]. split; [reflexivity|]. split; [reflexivity|].
  split; [exact last_lines_run_ends_flushed|].
  apply (shutdown_writes_whole_lines last_lines_run at_shutdown);
    first [reflexivity | exact last_lines_run_ends_flushed].
Defined.

Lemma single_producer_log_is_complete_witness :
  run alone_run init = Some alone_asleep ∧
  Forall (λ e, mThreadId e = 1) (queued_by alone_run) ∧
  mClosing alone_asleep = false ∧ step Serialize alone_asleep = None ∧
  mLogQueue alone_asleep = [] ∧ invoked alone_asleep = queued_by alone_run ∧
  sink_text alone_asleep +:+ mStream alone_asleep
    = rendering (values (queued_by alone_run)).
Proof.
  assert (Forall (λ e, mThreadId e = 1) (queued_by alone_run)) as Hone
    by (repeat constructor).
  split; [reflexivity|]. split; [exact Hone|]. split; [reflexivity|].
  split; [reflexivity|].
  apply (single_producer_log_is_complete alone_run alone_asleep 1);
    first [reflexivity | exact Hone].
Defined.

Lemma queue_keeps_arrival_order_witness :
  run waiting_run init = Some others_waiting ∧
  mLogQueue others_waiting `sublist_of` queued_by waiting_run.
Proof.
  split; [reflexivity|].
  apply (queue_keeps_arrival_order waiting_run others_waiting). reflexivity.
Defined.

Lemma shutdown_completes_the_log_witness :
  run last_lines_run init = Some at_shutdown ∧
  mClosing at_shutdown = true ∧ mThread at_shutdown ≠ Terminated ∧
  ∃ n st', n ≤ 2 ∧ run (replicate n Serialize) at_shutdown = Some st' ∧
    mThread st' = Terminated ∧ mLogQueue st' = [] ∧ mStream st' = "" ∧
    invoked st' ≡ₚ queued_by last_lines_run ∧
    sink_text st' = rendering (values (invoked st')).
Proof.
  split; [reflexivity|]. split; [reflexivity|]. split; [discriminate|].
  apply (shutdown_completes_the_log last_lines_run at_shutdown);
    [reflexivity|reflexivity|discriminate].
Defined.

Lemma worker_goes_back_to_sleep_witness :
  run midway_run init = Some midway ∧ mClosing midway = false ∧
  ∃ n st', n ≤ 2 + length (mLogQueue midway) ∧
    run (replicate n Serialize) midway = Some st' ∧
    mThread st' = Waiting ∧ step Serialize st' = None ∧
    ∀ e, e ∈ mLogQueue st' → mCurrentThreadId st' ≠ Some (mThreadId e).
Proof.
  split; [reflexivity|]. split; [reflexivity|].
  apply (worker_goes_back_to_sleep midway_run midway); reflexivity.
Defined.

Lemma sink_holds_whole_lines_witness :
  run line_run init = Some line_written ∧ mClosing line_written = false ∧
  "a" +:+ newline ∈ cout line_written ∧
  ∃ t seg, line_of (appended t line_run) seg ∧ "a" +:+ newline = rendering seg.
Proof.
  assert ("a" +:+ newline ∈ cout line_written) as Hin by (by left).
  split; [reflexivity|]. split; [reflexivity|]. split; [exact Hin|].
  apply (sink_holds_whole_lines line_run line_written);
    first [reflexivity | exact Hin].
Defined.

Lemma main_example_is_main : main_body 0 1 2 main_example.
Proof.
  split; try reflexivity.
  - apply (bool_decide_unpack _). reflexivity.
  - intros t Ht. rewrite !not_elem_of_cons in Ht.
    destruct Ht as (H0 & H1 & H2 & _).
    unfold main_example, appended. simpl.
    repeat (case_decide; [by subst|]). done.
Qed.

Lemma main_prints_its_lines_whole_witness :
  main_body 0 1 2 main_example ∧
  run (main_example ++ main_end) init = Some main_finished ∧
  mThread main_finished = Terminated ∧
  ∃ out, sink_text main_finished = foldr String.append "" out ∧
         out ≡ₚ main_line :: t1_lines ++ t2_lines ∧
         t1_lines `sublist_of` out ∧ t2_lines `sublist_of` out.
Proof.
  split; [exact main_example_is_main|]. split; [reflexivity|].
  apply (main_prints_its_lines_whole 0 1 2 main_example main_finished);
    first [reflexivity | exact main_example_is_main].
Defined.

Lemma loop_never_dereferences_end_witness :
  run midway_run init = Some midway ∧ in_loop midway ∧
  ∃ i e st', mCurrentLog midway = Some i ∧ mLogQueue midway !! i = Some e ∧
             mCurrentThreadId midway = Some (mThreadId e) ∧
             mFlushed midway = false ∧ step Serialize midway = Some st'.
Proof.
  assert (in_loop midway) as Hloop by (split; [by right|reflexivity]).
  split; [reflexivity|]. split; [exact Hloop|].
  apply (loop_never_dereferences_end midway_run midway);
    first [reflexivity | exact Hloop].
Defined.

